(** * Soft Actor-Critic (sac1) training loop: replay buffer, objective,
      parameter updates and the interaction loop.

    Shallow embedding of
    [spinup/algos/sac1/sac1_BipedalWalkerHardcore-v2_frame_stack.py].

    Conventions.
    - float32 values are idealised as real numbers ([R]); tensors are
      flat lists of reals, observation and action vectors likewise.  The
      statements made in this arithmetic are about what rounding does not
      decide; where rounding decides (whether the first temperature update
      moves [log_alpha]) the computation is repeated in IEEE 754 binary32
      (section "float32 arithmetic").
    - Python exceptions are values of [exn]; a computation that may raise
      returns [result].
    - numpy's global random generator is an explicit state [rng_state]
      threaded through the calls that draw from it. *)

From Stdlib Require Import Reals Lra Lia SpecFloat.
From stdpp Require Import base list functions relations.

Set Default Proof Using "Type".

(** ** Exceptions and fallible computations *)

Inductive exn : Type :=
  | IndexError
  | ValueError
  | ZeroDivisionError.

Inductive result (A : Type) : Type :=
  | Ok (a : A)
  | Raise (e : exn).
Arguments Ok {A} a.
Arguments Raise {A} e.

#[global] Instance result_ret : MRet result := λ A a, Ok a.
#[global] Instance result_bind : MBind result := λ A B k m,
  match m with
  | Ok a => k a
  | Raise e => Raise e
  end.

Definition succeeds {A : Type} (m : result A) : Prop :=
  match m with Ok _ => True | Raise _ => False end.

(** ** numpy primitives used by the buffer *)

Abbreviation float := R (only parsing).
Abbreviation vector := (list R) (only parsing).

Definition float_of_bool (b : bool) : float := if b then 1%R else 0%R.

(** [np.zeros(n)] and [np.zeros([n, d])]. *)
Definition np_zeros (n : nat) : list float := replicate n 0%R.
Definition np_zeros2 (n d : nat) : list vector := replicate n (np_zeros d).

(** [a[i] = x] for a non-negative integer [i]: IndexError out of range. *)
Definition setitem {A : Type} (a : list A) (i : nat) (x : A) : result (list A) :=
  if decide (i < length a) then Ok (<[i := x]> a) else Raise IndexError.

(** [a[idxs]] for an integer index array: a copy of the selected rows,
    IndexError if one index is out of range. *)
Fixpoint getitems {A : Type} (a : list A) (idxs : list nat) : result (list A) :=
  match idxs with
  | [] => Ok []
  | i :: rest =>
      match a !! i with
      | Some x => xs ← getitems a rest; Ok (x :: xs)
      | None => Raise IndexError
      end
  end.

(** State of [np.random]: an arbitrary stream of raw draws and the number
    of draws consumed so far. *)
Record rng_state : Type := mk_rng { raw : nat → nat; consumed : nat }.

(** [np.random.randint(low, high, size=n)]: [n] integers in [[low, high)];
    ValueError when the range is empty and at least one sample is asked for
    (numpy returns an empty array for [n = 0] before looking at the range in
    recent releases; every release raises for [n >= 1]). *)
Definition randint (low high n : nat) (g : rng_state)
  : result (list nat * rng_state) :=
  if decide (n = 0) then Ok ([], g)
  else if decide (high ≤ low) then Raise ValueError
  else Ok (map (λ i, low + raw g (consumed g + i) `mod` (high - low)) (seq 0 n),
           mk_rng (raw g) (consumed g + n)).

(** ** ReplayBuffer *)

Record Transition : Type := mk_transition {
  t_obs : vector;
  t_act : vector;
  t_rew : float;
  t_next_obs : vector;
  t_done : bool
}.

Record ReplayBuffer : Type := mk_buffer {
  obs1_buf : list vector;
  obs2_buf : list vector;
  acts_buf : list vector;
  rews_buf : list float;
  done_buf : list float;
  ptr : nat;
  size : nat;
  max_size : nat
}.

(** [ReplayBuffer.__init__(obs_dim, act_dim, size)] *)
Definition ReplayBuffer_init (obs_dim act_dim sz : nat) : ReplayBuffer :=
  {| obs1_buf := np_zeros2 sz obs_dim;
     obs2_buf := np_zeros2 sz obs_dim;
     acts_buf := np_zeros2 sz act_dim;
     rews_buf := np_zeros sz;
     done_buf := np_zeros sz;
     ptr := 0; size := 0; max_size := sz |}.

(** Python's [a % b] on non-negative integers. *)
Definition py_mod (a b : nat) : result nat :=
  if decide (b = 0) then Raise ZeroDivisionError else Ok (a `mod` b).

(** [ReplayBuffer.store(obs, act, rew, next_obs, done)] *)
Definition store (self : ReplayBuffer) (t : Transition) : result ReplayBuffer :=
  o1 ← setitem (obs1_buf self) (ptr self) (t_obs t);
  o2 ← setitem (obs2_buf self) (ptr self) (t_next_obs t);
  ac ← setitem (acts_buf self) (ptr self) (t_act t);
  rw ← setitem (rews_buf self) (ptr self) (t_rew t);
  dn ← setitem (done_buf self) (ptr self) (float_of_bool (t_done t));
  p ← py_mod (ptr self + 1) (max_size self);
  Ok {| obs1_buf := o1; obs2_buf := o2; acts_buf := ac; rews_buf := rw;
        done_buf := dn; ptr := p;
        size := Nat.min (size self + 1) (max_size self);
        max_size := max_size self |}.

(** A sequence of [store] calls, oldest first. *)
Fixpoint store_all (self : ReplayBuffer) (ts : list Transition)
  : result ReplayBuffer :=
  match ts with
  | [] => Ok self
  | t :: rest => b ← store self t; store_all b rest
  end.

(** The dict returned by [sample_batch]. *)
Record Batch : Type := mk_batch {
  b_obs1 : list vector;
  b_obs2 : list vector;
  b_acts : list vector;
  b_rews : list float;
  b_done : list float
}.

(** [ReplayBuffer.sample_batch(batch_size)].  The method reads [self] and
    draws from the global generator; the buffer and the generator after the
    call are returned next to the batch. *)
Definition sample_batch (self : ReplayBuffer) (batch_size : nat) (g : rng_state)
  : result (Batch * ReplayBuffer * rng_state) :=
  '(idxs, g') ← randint 0 (size self) batch_size g;
  o1 ← getitems (obs1_buf self) idxs;
  o2 ← getitems (obs2_buf self) idxs;
  ac ← getitems (acts_buf self) idxs;
  rw ← getitems (rews_buf self) idxs;
  dn ← getitems (done_buf self) idxs;
  Ok ({| b_obs1 := o1; b_obs2 := o2; b_acts := ac; b_rews := rw; b_done := dn |},
      self, g').

(** What slot [i] of the five parallel arrays holds. *)
Definition row : Type := (vector * vector * vector * float * float)%type.

Definition stored (t : Transition) : row :=
  (t_obs t, t_next_obs t, t_act t, t_rew t, float_of_bool (t_done t)).

Definition row_at (self : ReplayBuffer) (i : nat) : option row :=
  match obs1_buf self !! i, obs2_buf self !! i, acts_buf self !! i,
        rews_buf self !! i, done_buf self !! i with
  | Some o1, Some o2, Some a, Some r, Some d => Some (o1, o2, a, r, d)
  | _, _, _, _, _ => None
  end.

(** Buffers as the constructor and [store] produce them. *)
Record buffer_wf (self : ReplayBuffer) : Prop := mk_buffer_wf {
  wf_obs1 : length (obs1_buf self) = max_size self;
  wf_obs2 : length (obs2_buf self) = max_size self;
  wf_acts : length (acts_buf self) = max_size self;
  wf_rews : length (rews_buf self) = max_size self;
  wf_done : length (done_buf self) = max_size self;
  wf_ptr : ptr self < max_size self;
  wf_size : size self ≤ max_size self
}.

(** ** Tensors: elementwise arithmetic *)

Abbreviation tensor := (list R) (only parsing).

Definition t_add (a b : tensor) : tensor := zip_with Rplus a b.
Definition t_sub (a b : tensor) : tensor := zip_with Rminus a b.
Definition t_mul (a b : tensor) : tensor := zip_with Rmult a b.
Definition t_min (a b : tensor) : tensor := zip_with Rmin a b.
(** scalar * tensor and scalar - tensor (broadcast of the scalar) *)
Definition t_scale (c : float) (a : tensor) : tensor := map (Rmult c) a.
Definition t_rsub (c : float) (a : tensor) : tensor := map (Rminus c) a.
Definition t_shift (a : tensor) (c : float) : tensor := map (λ x, (x + c)%R) a.

Definition reduce_sum (a : tensor) : float := foldr Rplus 0%R a.
Definition reduce_mean (a : tensor) : float :=
  (reduce_sum a / INR (length a))%R.

(** ** ObjectiveBuilder (lines 170-194) *)

(** [alpha]: a number, or ['auto'] (then [alpha = tf.exp(log_alpha)]). *)
Inductive alpha_cfg : Type :=
  | AlphaFixed (a : float)
  | AlphaAuto.

(** [-np.prod(env.action_space.shape)] *)
Definition target_entropy (action_space_shape : list nat) : float :=
  (- INR (foldr Nat.mul 1%nat action_space_shape))%R.


(** Gradient of [alpha_loss] with respect to [log_alpha], the other
    arguments held constant. *)
Definition alpha_loss_grad (logp_pi : tensor) (tgt_entropy : float) : float :=
  reduce_mean (map Ropp (t_shift logp_pi tgt_entropy)).

(** [min_q_pi = tf.minimum(q1_pi_, q2_pi_)] *)
Definition min_q_pi (q1_pi_ q2_pi_ : tensor) : tensor := t_min q1_pi_ q2_pi_.

(** [v_backup = tf.stop_gradient(min_q_pi - alpha * logp_pi2)] *)
Definition v_backup (min_q : tensor) (alpha : float) (logp_pi2 : tensor) : tensor :=
  t_sub min_q (t_scale alpha logp_pi2).

(** [q_backup = r_ph + gamma*(1-d_ph)*v_backup] *)
Definition q_backup (r_ph : tensor) (gamma : float) (d_ph v_bkp : tensor) : tensor :=
  t_add r_ph (t_mul (t_scale gamma (t_rsub 1%R d_ph)) v_bkp).

(** The regression target as the graph computes it from its inputs. *)
Definition q_backup_graph (r_ph d_ph : tensor) (gamma alpha : float)
    (q1_pi_ q2_pi_ logp_pi2 : tensor) : tensor :=
  q_backup r_ph gamma d_ph (v_backup (min_q_pi q1_pi_ q2_pi_) alpha logp_pi2).

(** [pi_loss = tf.reduce_mean(alpha * logp_pi - q1_pi)] *)
Definition pi_loss (alpha : float) (logp_pi q1_pi : tensor) : float :=
  reduce_mean (t_sub (t_scale alpha logp_pi) q1_pi).

(** [0.5 * tf.reduce_mean((q_backup - q)**2)] *)
Definition q_loss (q_bkp q : tensor) : float :=
  (0.5 * reduce_mean (map (λ x, x * x) (t_sub q_bkp q)))%R.

Definition value_loss (q_bkp q1 q2 : tensor) : float :=
  (q_loss q_bkp q1 + q_loss q_bkp q2)%R.

(** ** Graph variables *)

Inductive scope : Type := Main | Target.
Inductive subnet : Type := Pi | Q1 | Q2.

(** A variable that [actor_critic] creates: the sub-scope ([pi], [q1] or
    [q2]) and an index inside it. *)
Abbreviation ac_var := (subnet * nat)%type (only parsing).

(** [NetVar sc (net, i)] is the variable [sc/net/i]; [LogAlpha] is the
    variable [log_alpha], created outside both scopes. *)
Inductive variable : Type :=
  | NetVar (sc : scope) (x : ac_var)
  | LogAlpha.

#[global] Instance scope_eq_dec : EqDecision scope.
Proof. solve_decision. Defined.
#[global] Instance subnet_eq_dec : EqDecision subnet.
Proof. solve_decision. Defined.
#[global] Instance variable_eq_dec : EqDecision variable.
Proof. solve_decision. Defined.

(** Modelled from the spec: [actor_critic] (default [core.mlp_actor_critic],
    not in the source tree) is the external function approximator; called
    under a variable scope it creates its variables there, "structurally
    identical" for the main and the target call (lines 153-158 call the same
    function, with the same keyword arguments, under ['main'] and under
    ['target']).  The model keeps only the list of variables one call
    creates, in creation order. *)
Abbreviation ac_layout := (list (subnet * nat)) (only parsing).

(** [tf.global_variables()] after graph construction: the main call, the
    target call, then [log_alpha] when alpha is learned. *)
Definition global_variables (layout : ac_layout) (alpha : alpha_cfg)
  : list variable :=
  map (NetVar Main) layout ++ map (NetVar Target) layout ++
  match alpha with AlphaAuto => [LogAlpha] | AlphaFixed _ => [] end.

(** The scope strings the program passes to [get_vars]. *)
Inductive scope_name : Type :=
  | s_main      (* 'main' *)
  | s_target    (* 'target' *)
  | s_main_pi   (* 'main/pi' *)
  | s_main_q.   (* 'main/q': matches main/q1 and main/q2 *)

Definition in_scope (s : scope_name) (v : variable) : bool :=
  match v, s with
  | NetVar Main _, s_main => true
  | NetVar Target _, s_target => true
  | NetVar Main (Pi, _), s_main_pi => true
  | NetVar Main (Q1, _), s_main_q => true
  | NetVar Main (Q2, _), s_main_q => true
  | _, _ => false
  end.

(** Modelled from the spec: [core.get_vars(scope)] (not in the source tree)
    "exposes all trainable parameters" of a scope: the network variables
    whose name lies under [scope], in creation order. *)
Definition get_vars (layout : ac_layout) (alpha : alpha_cfg) (s : scope_name)
  : list variable :=
  filter (λ v, in_scope s v = true) (global_variables layout alpha).

(** The values of all variables. *)
Abbreviation params := (variable → list R) (only parsing).

(** ** tf.train.AdamOptimizer

    The documented update rule, in exact arithmetic; [adam_first_step_f32]
    is the first step on a scalar variable in float32. *)

Definition beta1 : float := 0.9%R.
Definition beta2 : float := 0.999%R.
Definition epsilon : float := (1 / 100000000)%R.

(** Number of steps taken so far and the two slots of every variable. *)
Record adam_state : Type := mk_adam {
  adam_t : nat;
  slot_m : variable → tensor;
  slot_v : variable → tensor
}.

(** Slots are created as zeros of the variable's shape. *)
Definition adam_new (s : params) : adam_state :=
  {| adam_t := 0;
     slot_m := λ x, np_zeros (length (s x));
     slot_v := λ x, np_zeros (length (s x)) |}.

Definition adam_lr_t (lr : float) (t : nat) : float :=
  (lr * sqrt (1 - beta2 ^ t) / (1 - beta1 ^ t))%R.
Definition adam_m (m g : tensor) : tensor :=
  zip_with (λ mi gi, beta1 * mi + (1 - beta1) * gi)%R m g.
Definition adam_v (v g : tensor) : tensor :=
  zip_with (λ vi gi, beta2 * vi + (1 - beta2) * (gi * gi))%R v g.
Definition adam_var (lr_t : float) (x m v : tensor) : tensor :=
  zip_with (λ xi mv, xi - lr_t * mv.1 / (sqrt mv.2 + epsilon))%R x (zip m v).

(** [optimizer.minimize(loss, var_list)]: the gradients [grads] of the loss
    are computed first, then every variable of [var_list] and its slots are
    updated; variables outside [var_list] are not written. *)
Definition adam_minimize (lr : float) (grads : variable → tensor)
    (var_list : list variable) (opt : adam_state) (s : params)
  : adam_state * params :=
  let lr_t := adam_lr_t lr (S (adam_t opt)) in
  let apply_one (acc : adam_state * params) (x : variable) :=
    let m' := adam_m (slot_m acc.1 x) (grads x) in
    let v' := adam_v (slot_v acc.1 x) (grads x) in
    ({| adam_t := adam_t acc.1;
        slot_m := <[x := m']> (slot_m acc.1);
        slot_v := <[x := v']> (slot_v acc.1) |},
     <[x := adam_var lr_t (acc.2 x) m' v']> acc.2) in
  let r := foldl apply_one (opt, s) var_list in
  ({| adam_t := S (adam_t r.1); slot_m := slot_m r.1; slot_v := slot_v r.1 |},
   r.2).

(** ** The session: variables, optimizer state, random-op state *)

Record session : Type := mk_session {
  vars : params;
  pi_optimizer : adam_state;
  value_optimizer : adam_state;
  alpha_optimizer : adam_state;
  (** number of [sess.run] calls that evaluated the policy's sampling op *)
  rand_calls : nat
}.

(** The function approximators are opaque: what the graph computes from the
    variables, the fed batch and the sampling noise is given by oracles. *)
Record networks : Type := mk_networks {
  (** [mu] and [pi] at one observation *)
  net_mu : params → vector → vector;
  net_pi : params → nat → vector → vector;
  (** [logp_pi] on the batch fed to [x_ph] *)
  net_logp_pi : params → nat → Batch → tensor;
  (** gradients of [pi_loss] and of [value_loss], per variable *)
  net_grad_pi_loss : params → nat → Batch → variable → tensor;
  net_grad_value_loss : params → nat → Batch → variable → tensor;
  (** the fetched values [pi_loss, q1_loss, q2_loss, q1, q2, logp_pi, alpha] *)
  net_outs : params → nat → Batch → list tensor
}.

(** Values after [tf.global_variables_initializer()]: the networks'
    initializers draw [w0]; [log_alpha] has [initializer=1.0]. *)
Definition global_variables_initializer (w0 : variable → tensor) : params :=
  λ x, match x with LogAlpha => [1%R] | NetVar _ _ => w0 x end.

Definition read_log_alpha (s : params) : float := hd 0%R (s LogAlpha).

(** [alpha]: the configured number, or [tf.exp(log_alpha)]. *)
Definition alpha_value (alpha : alpha_cfg) (s : params) : float :=
  match alpha with
  | AlphaFixed a => a
  | AlphaAuto => exp (read_log_alpha s)
  end.

Section Graph.
Context (net : networks) (layout : ac_layout) (alpha : alpha_cfg).
(** [env.action_space.shape] *)
Context (action_space_shape : list nat).
Context (lr polyak : float).

(** [v_main, v_targ in zip(get_vars('main'), get_vars('target'))] *)
Definition main_target_pairs : list (variable * variable) :=
  zip (get_vars layout alpha s_main) (get_vars layout alpha s_target).

(** [target_init]: [tf.assign(v_targ, v_main)] for every pair. *)
Definition target_init (s : params) : params :=
  foldl (λ acc (p : variable * variable), <[p.2 := acc p.1]> acc)
        s main_target_pairs.

(** [target_update]:
    [tf.assign(v_targ, polyak*v_targ + (1-polyak)*v_main)] for every pair,
    in exact arithmetic (the float32 graph rounds the two products and the
    sum; with [polyak] 0 or 1 nothing is rounded). *)
Definition target_update (s : params) : params :=
  foldl (λ acc (p : variable * variable),
           <[p.2 := t_add (t_scale polyak (acc p.2))
                          (t_scale (1 - polyak)%R (acc p.1))]> acc)
        s main_target_pairs.

(** [train_pi_op = pi_optimizer.minimize(pi_loss, var_list=get_vars('main/pi'))] *)
Definition train_pi_op (b : Batch) (ss : session) : session :=
  let r := adam_minimize lr (net_grad_pi_loss net (vars ss) (rand_calls ss) b)
             (get_vars layout alpha s_main_pi) (pi_optimizer ss) (vars ss) in
  {| vars := r.2; pi_optimizer := r.1;
     value_optimizer := value_optimizer ss;
     alpha_optimizer := alpha_optimizer ss; rand_calls := rand_calls ss |}.

(** [train_value_op = value_optimizer.minimize(value_loss, var_list=get_vars('main/q'))] *)
Definition train_value_op (b : Batch) (ss : session) : session :=
  let r := adam_minimize lr (net_grad_value_loss net (vars ss) (rand_calls ss) b)
             (get_vars layout alpha s_main_q) (value_optimizer ss) (vars ss) in
  {| vars := r.2; pi_optimizer := pi_optimizer ss;
     value_optimizer := r.1;
     alpha_optimizer := alpha_optimizer ss; rand_calls := rand_calls ss |}.

(** [train_alpha_op = alpha_optimizer.minimize(loss=alpha_loss, var_list=[log_alpha])]
    with [learning_rate=lr*0.01]. *)
Definition train_alpha_op (b : Batch) (ss : session) : session :=
  let g := alpha_loss_grad (net_logp_pi net (vars ss) (rand_calls ss) b)
             (target_entropy action_space_shape) in
  let r := adam_minimize (lr * 0.01)%R (λ _, [g]) [LogAlpha]
             (alpha_optimizer ss) (vars ss) in
  {| vars := r.2; pi_optimizer := pi_optimizer ss;
     value_optimizer := value_optimizer ss;
     alpha_optimizer := r.1; rand_calls := rand_calls ss |}.

Definition target_update_op (ss : session) : session :=
  {| vars := target_update (vars ss); pi_optimizer := pi_optimizer ss;
     value_optimizer := value_optimizer ss;
     alpha_optimizer := alpha_optimizer ss; rand_calls := rand_calls ss |}.

(** The update operations of the graph. *)
Inductive op : Type :=
  | Op_train_pi
  | Op_train_value
  | Op_target_update
  | Op_train_alpha.

#[global] Instance op_eq_dec : EqDecision op.
Proof. solve_decision. Defined.

(** [tf.control_dependencies]: [train_value_op] is built under
    [[train_pi_op]], [target_update] under [[train_value_op]]. *)
Definition control_inputs (o : op) : list op :=
  match o with
  | Op_train_pi => []
  | Op_train_value => [Op_train_pi]
  | Op_target_update => [Op_train_value]
  | Op_train_alpha => []
  end.

(** The update operations among [step_ops]. *)
Definition step_ops : list op :=
  match alpha with
  | AlphaFixed _ => [Op_train_pi; Op_train_value; Op_target_update]
  | AlphaAuto => [Op_train_pi; Op_train_value; Op_target_update; Op_train_alpha]
  end.

Definition apply_op (b : Batch) (o : op) (ss : session) : session :=
  match o with
  | Op_train_pi => train_pi_op b ss
  | Op_train_value => train_value_op b ss
  | Op_target_update => target_update_op ss
  | Op_train_alpha => train_alpha_op b ss
  end.

(** One [sess.run(step_ops, feed_dict)]: every fetched operation starts
    once, after all its control inputs have finished, and finishes once;
    operations not ordered by a control dependency may overlap.  The
    effect of an operation takes place when it finishes. *)
Inductive event : Type :=
  | Start (o : op)
  | Finish (o : op).

#[global] Instance event_eq_dec : EqDecision event.
Proof. solve_decision. Defined.

Inductive run_step (b : Batch)
  : list event * session → list event * session → Prop :=
  | run_start tr ss o :
      o ∈ step_ops →
      Start o ∉ tr →
      (∀ d, d ∈ control_inputs o → Finish d ∈ tr) →
      run_step b (tr, ss) (tr ++ [Start o], ss)
  | run_finish tr ss o :
      Start o ∈ tr →
      Finish o ∉ tr →
      run_step b (tr, ss) (tr ++ [Finish o], apply_op b o ss).

(** Executions of one [sess.run(step_ops)] from session [ss]. *)
Definition execution (b : Batch) (ss : session)
    (st : list event * session) : Prop :=
  rtc (run_step b) ([], ss) st.

Definition complete (tr : list event) : Prop :=
  ∀ o, o ∈ step_ops → Finish o ∈ tr.

(** [e1] occurs in [tr], and [e2] does not occur before it. *)
Definition precedes (e1 e2 : event) (tr : list event) : Prop :=
  ∃ l1 l2, tr = l1 ++ e1 :: l2 ∧ e2 ∉ l1.

(** The run used by the training loop: operations in the order of
    [step_ops]; the fetched values are those of the graph before the
    updates; the sampling op has been evaluated once. *)
Definition sess_run_step_ops (b : Batch) (ss : session)
  : list tensor * session :=
  let outs := net_outs net (vars ss) (rand_calls ss) b in
  let ss' := foldl (λ acc o, apply_op b o acc) ss step_ops in
  (outs, {| vars := vars ss'; pi_optimizer := pi_optimizer ss';
            value_optimizer := value_optimizer ss';
            alpha_optimizer := alpha_optimizer ss';
            rand_calls := S (rand_calls ss') |}).

(** [get_action(o, deterministic)] *)
Definition get_action (o : vector) (deterministic : bool) (ss : session)
  : vector * session :=
  if deterministic then (net_mu net (vars ss) o, ss)
  else (net_pi net (vars ss) (rand_calls ss) o,
        {| vars := vars ss; pi_optimizer := pi_optimizer ss;
           value_optimizer := value_optimizer ss;
           alpha_optimizer := alpha_optimizer ss;
           rand_calls := S (rand_calls ss) |}).
End Graph.

(** ** TrainingLoop (lines 235-339) *)

(** The environment collaborator: a state machine with [reset], [step] and
    [action_space.sample()]. *)
Record environment (E : Type) : Type := mk_environment {
  env_reset : E → vector * E;
  env_step : vector → E → (vector * float * bool) * E;
  action_space_sample : E → vector * E;
  action_space_shape : list nat;
  observation_dim : nat
}.
Arguments env_reset {E} _ _.
Arguments env_step {E} _ _ _.
Arguments action_space_sample {E} _ _.
Arguments action_space_shape {E} _.
Arguments observation_dim {E} _.

Record config : Type := mk_config {
  steps_per_epoch : nat;
  epochs : nat;
  replay_size : nat;
  gamma : float;
  polyak : float;
  lr : float;
  alpha : alpha_cfg;
  batch_size : nat;
  start_steps : nat;
  max_ep_len_train : nat;
  max_ep_len_test : nat;
  save_freq : nat
}.

(** What the logger collaborator receives. *)
Inductive log_entry : Type :=
  | LogStep (outs : list tensor)           (* logger.store(LossPi=..., ...) *)
  | LogEpisode (ret : float) (len : nat)   (* logger.store(EpRet, EpLen) *)
  | LogTestEpisode (ret : float) (len : nat)
  | LogSaveState (epoch : nat)
  | LogEpoch (epoch t : nat).              (* log_tabular ... dump_tabular *)

(** Where the action of an environment step comes from. *)
Inductive action_source : Type :=
  | FromPolicy        (* a = get_action(o) *)
  | FromActionSpace.  (* a = env.action_space.sample() *)

(** [if t > start_steps: ... else: ...] *)
Definition action_source_at (start_steps t : nat) : action_source :=
  if decide (start_steps < t) then FromPolicy else FromActionSpace.

Record loop_state (E : Type) : Type := mk_loop_state {
  env : E;
  test_env : E;
  sess : session;
  replay_buffer : ReplayBuffer;
  np_random : rng_state;
  o : vector;
  ep_ret : float;
  ep_len : nat;
  logger : list log_entry
}.
Arguments mk_loop_state {E}.
Arguments env {E} _.
Arguments test_env {E} _.
Arguments sess {E} _.
Arguments replay_buffer {E} _.
Arguments np_random {E} _.
Arguments o {E} _.
Arguments ep_ret {E} _.
Arguments ep_len {E} _.
Arguments logger {E} _.

Section TrainingLoop.
Context {E : Type} (envi : environment E) (net : networks).
Context (layout : ac_layout) (cfg : config).

Definition run_step_ops (b : Batch) (ss : session) : list tensor * session :=
  sess_run_step_ops net layout (alpha cfg) (action_space_shape envi)
                    (lr cfg) (polyak cfg) b ss.

(** [for j in range(n)]: sample a batch, run [step_ops], log the outputs. *)
Fixpoint train_burst (n : nat) (st : loop_state E) : result (loop_state E) :=
  match n with
  | 0 => Ok st
  | S k =>
      '(batch, buf, g) ← sample_batch (replay_buffer st) (batch_size cfg)
                                      (np_random st);
      let r := run_step_ops batch (sess st) in
      train_burst k
        (mk_loop_state (env st) (test_env st) r.2 buf g (o st)
                       (ep_ret st) (ep_len st) (logger st ++ [LogStep r.1]))
  end.

(** Lines 263-266: choice of the action at total step [t]. *)
Definition select_action (t : nat) (st : loop_state E)
  : vector * loop_state E :=
  match action_source_at (start_steps cfg) t with
  | FromPolicy =>
      let r := get_action net (o st) false (sess st) in
      (r.1, mk_loop_state (env st) (test_env st) r.2 (replay_buffer st)
              (np_random st) (o st) (ep_ret st) (ep_len st) (logger st))
  | FromActionSpace =>
      let r := action_space_sample envi (env st) in
      (r.1, mk_loop_state r.2 (test_env st) (sess st) (replay_buffer st)
              (np_random st) (o st) (ep_ret st) (ep_len st) (logger st))
  end.

(** Lines 286-307: at the end of an episode, [ep_len] update cycles, the
    episode record, and [env.reset()]. *)
Definition end_of_episode (st : loop_state E) : result (loop_state E) :=
  st1 ← train_burst (ep_len st) st;
  let r := env_reset envi (env st1) in
  Ok (mk_loop_state r.2 (test_env st1) (sess st1) (replay_buffer st1)
        (np_random st1) r.1 0%R 0
        (logger st1 ++ [LogEpisode (ep_ret st1) (ep_len st1)])).

(** Lines 263-307 of one iteration of the main loop. *)
Definition collect_and_train (t : nat) (st : loop_state E)
  : result (loop_state E) :=
  let '(a, st1) := select_action t st in
  let '(o2, r, d, e') := env_step envi a (env st1) in
  let ep_ret' := (ep_ret st1 + r)%R in
  let ep_len' := ep_len st1 + 1 in
  buf ← store (replay_buffer st1) (mk_transition (o st1) a r o2 d);
  let st2 := mk_loop_state e' (test_env st1) (sess st1) buf (np_random st1)
               o2 ep_ret' ep_len' (logger st1) in
  if d || bool_decide (ep_len' = max_ep_len_train cfg)
  then end_of_episode st2
  else Ok st2.

(** One test episode: [while not(d or (ep_len == max_ep_len_test))];
    [remaining] is [max_ep_len_test - ep_len]. *)
Fixpoint test_episode (ss : session) (remaining : nat) (ob : vector)
    (ret : float) (len : nat) (e : E) : float * nat * E :=
  match remaining with
  | 0 => (ret, len, e)
  | S k =>
      let '(o2, r, d, e') := env_step envi (get_action net ob true ss).1 e in
      if d then ((ret + r)%R, len + 1, e')
      else test_episode ss k o2 (ret + r)%R (len + 1) e'
  end.

(** [test_agent(n)] *)
Fixpoint test_agent (n : nat) (st : loop_state E) : loop_state E :=
  match n with
  | 0 => st
  | S k =>
      let r0 := env_reset envi (test_env st) in
      let '(ret, len, e') :=
        test_episode (sess st) (max_ep_len_test cfg) r0.1 0%R 0 r0.2 in
      test_agent k
        (mk_loop_state (env st) e' (sess st) (replay_buffer st) (np_random st)
           (o st) (ep_ret st) (ep_len st)
           (logger st ++ [LogTestEpisode ret len]))
  end.

(** Python's [a // b] on non-negative integers. *)
Definition py_floordiv (a b : nat) : result nat :=
  if decide (b = 0) then Raise ZeroDivisionError else Ok (a `div` b).

(** Lines 310-339: end of epoch wrap-up. *)
Definition epoch_wrap_up (t : nat) (st : loop_state E) : result (loop_state E) :=
  if decide (0 < t) then
    m ← py_mod t (steps_per_epoch cfg);
    if decide (m = 0) then
      epoch ← py_floordiv t (steps_per_epoch cfg);
      sv ← py_mod epoch (save_freq cfg);
      let saved :=
        if bool_decide (sv = 0) || bool_decide (epoch = epochs cfg - 1)
        then [LogSaveState epoch] else [] in
      let st1 := mk_loop_state (env st) (test_env st) (sess st)
                   (replay_buffer st) (np_random st) (o st) (ep_ret st)
                   (ep_len st) (logger st ++ saved) in
      let st2 := test_agent 15 st1 in
      Ok (mk_loop_state (env st2) (test_env st2) (sess st2)
            (replay_buffer st2) (np_random st2) (o st2) (ep_ret st2)
            (ep_len st2) (logger st2 ++ [LogEpoch epoch t]))
    else Ok st
  else Ok st.

(** The body of [for t in range(total_steps)]. *)
Definition loop_body (t : nat) (st : loop_state E) : result (loop_state E) :=
  st1 ← collect_and_train t st;
  epoch_wrap_up t st1.

(** Iterations [t, t+1, ..., t+n-1]. *)
Fixpoint main_loop (n t : nat) (st : loop_state E) : result (loop_state E) :=
  match n with
  | 0 => Ok st
  | S k => st1 ← loop_body t st; main_loop k (t + 1) st1
  end.

(** State at the start of the main loop (lines 161, 227-229, 252). *)
Definition initial_state (w0 : variable → tensor) (e0 te0 : E)
    (g0 : rng_state) : loop_state E :=
  let s0 := global_variables_initializer w0 in
  let s1 := target_init layout (alpha cfg) s0 in
  let r := env_reset envi e0 in
  mk_loop_state r.2 te0
    (mk_session s1 (adam_new s0) (adam_new s0) (adam_new s0) 0)
    (ReplayBuffer_init (observation_dim envi)
       (hd 0 (action_space_shape envi)) (replay_size cfg))
    g0 r.1 0%R 0 [].

(** [sac1(...)]: [total_steps = steps_per_epoch * epochs] iterations. *)
Definition sac1 (w0 : variable → tensor) (e0 te0 : E) (g0 : rng_state)
  : result (loop_state E) :=
  main_loop (steps_per_epoch cfg * epochs cfg) 0 (initial_state w0 e0 te0 g0).

(** The actions sources of the first [n] iterations. *)
Definition action_sources (n : nat) : list action_source :=
  map (action_source_at (start_steps cfg)) (seq 0 n).
End TrainingLoop.

(** The buffer after the transitions [ts] were stored, one by one, into a
    fresh buffer of capacity [N]. *)
Record filled (N : nat) (ts : list Transition) (b : ReplayBuffer) : Prop :=
  mk_filled {
  f_wf : buffer_wf b;
  f_max : max_size b = N;
  f_ptr : ptr b = length ts `mod` N;
  f_size : size b = Nat.min (length ts) N;
  f_rows : ∀ j t, ts !! j = Some t → length ts ≤ j + N →
           row_at b (j `mod` N) = Some (stored t)
}.

(** ** Concrete data used to instantiate the statements *)

Definition tr0 : Transition := mk_transition [0%R] [0%R] 1%R [1%R] false.
Definition tr1 : Transition := mk_transition [1%R] [0%R] 1%R [2%R] false.
Definition tr2 : Transition := mk_transition [2%R] [1%R] 1%R [3%R] true.

(** The buffer of capacity 2 after [tr0] was stored, and a generator. *)
Definition buf_one : ReplayBuffer :=
  mk_buffer [[0%R]; [0%R]] [[1%R]; [0%R]] [[0%R]; [0%R]] [1%R; 0%R]
            [0%R; 0%R] 1 1 2.
Definition gen0 : rng_state := mk_rng (λ n, n) 0.

(** An actor-critic with one variable per sub-network, and values for the
    variables. *)
Definition layout3 : list (subnet * nat) := [(Pi, 0); (Q1, 0); (Q2, 0)].
Definition w_ex : variable → list R :=
  λ v, match v with
       | NetVar Main _ => [1%R; 2%R]
       | NetVar Target _ => [3%R; 4%R]
       | LogAlpha => [1%R]
       end.

(** The target-scope variable built by the same [actor_critic] code as a
    main-scope variable. *)
Definition target_of (v : variable) : variable :=
  match v with
  | NetVar _ x => NetVar Target x
  | LogAlpha => LogAlpha
  end.

(** The operations that have finished, in the order in which they did. *)
Definition finished_ops (tr : list event) : list op :=
  omap (λ e, match e with Finish o => Some o | Start _ => None end) tr.

(** The trace in which the operations run one after the other. *)
Definition sequential_trace (ops : list op) : list event :=
  concat (map (λ o, [Start o; Finish o]) ops).

(** Constant oracles, an empty batch and a session, to instantiate the
    statements about the graph. *)
Definition net0 : networks :=
  mk_networks (λ _ o, o) (λ _ _ o, o) (λ _ _ _, [2%R; 0%R])
              (λ _ _ _ _, [1%R; 1%R]) (λ _ _ _ _, [1%R; 1%R]) (λ _ _ _, []).
Definition batch0 : Batch := mk_batch [] [] [] [] [].
Definition sess0 : session :=
  mk_session (global_variables_initializer w_ex)
    (adam_new (global_variables_initializer w_ex))
    (adam_new (global_variables_initializer w_ex))
    (adam_new (global_variables_initializer w_ex)) 0.

(** The parameter updates (policy, value, target) that have finished, in
    the order in which they did. *)
Definition finish_of_update (e : event) : option op :=
  match e with
  | Finish o => if decide (o = Op_train_alpha) then None else Some o
  | Start _ => None
  end.
Definition finished_updates (tr : list event) : list op :=
  omap finish_of_update tr.

#[global] Instance action_source_eq_dec : EqDecision action_source.
Proof. solve_decision. Defined.

(** Number of iterations among the first [n] whose action is drawn from the
    action space. *)
Definition random_action_steps (cfg : config) (n : nat) : nat :=
  length (filter (λ a, a = FromActionSpace) (action_sources cfg n)).

(** A two-step environment (the state counts the steps of the episode), a
    configuration and a loop state in the middle of an episode. *)
Definition env_ex : environment nat :=
  mk_environment nat
    (λ _, ([0%R], 0))
    (λ _ e, (([1%R], 1%R, bool_decide (e + 1 = 2)), e + 1))
    (λ e, ([0%R], e))
    [1] 1.
Definition cfg_ex : config :=
  mk_config 20 1 2 0.99%R 0.995%R 0.0005%R (AlphaFixed 0.2%R) 4 0 5 5 1.
Definition st_ex : loop_state nat :=
  mk_loop_state 1 0 sess0 buf_one gen0 [1%R] 1%R 1 [].

(** A batch of two transitions; on it the oracle [net0] reports the
    log-probabilities [[2; 0]]. *)
Definition batch2 : Batch :=
  mk_batch [[0%R]; [0%R]] [[1%R]; [1%R]] [[0%R]; [0%R]] [1%R; 1%R] [0%R; 0%R].

(** Membership and non-membership in a list given by its elements. *)
Ltac elem_of_list :=
  repeat first [apply list_elem_of_here | apply list_elem_of_further].
Ltac not_elem_of_list :=
  let H := fresh in
  intros H;
  repeat (apply elem_of_cons in H as [H|H]; [discriminate H|]);
  by apply elem_of_nil in H.

(** ** Environment wrappers of the script part (lines 363-449) *)

(** What a wrapper method does: it returns, or it raises one of the two
    exceptions its code can run into. *)
Inductive outcome (A : Type) : Type :=
  | Return (a : A)
  | UnboundLocalError
  | ReshapeError.
Arguments Return {A} a.
Arguments UnboundLocalError {A}.
Arguments ReshapeError {A}.

(** [np.append(obs, action.reshape(dim))]: the reshape raises ValueError
    unless the action has [dim] entries. *)
Definition append_action (obs action : vector) (dim : nat) : outcome vector :=
  if decide (length action = dim) then Return (obs ++ action) else ReshapeError.

(** [np.clip(x, lo, hi)] *)
Definition np_clip (x lo hi : float) : float := Rmin (Rmax x lo) hi.

Section Wrappers.
Context {E : Type} (envi : environment E).

(** The loop of [Wrapper.step] (lines 376-384) with [n] iterations to go;
    [r] is the reward summed so far and [bound] holds the locals [obs_] and
    [done_] once an iteration has bound them. *)
Fixpoint Wrapper_step_loop (n : nat) (action : vector) (r : float)
    (bound : option (vector * bool)) (e : E)
  : outcome ((vector * float * bool) * E) :=
  match n with
  | 0 =>
      match bound with
      | Some (obs_, done_) => Return ((obs_, r, done_), e)
      | None => UnboundLocalError
      end
  | S k =>
      let '(obs_, reward_, done_, e') := env_step envi action e in
      let r' := (r + reward_)%R in
      if done_ then Return ((obs_, 0%R, done_), e')
      else Wrapper_step_loop k action r' (Some (obs_, done_)) e'
  end.

(** [Wrapper.step(action)] *)
Definition Wrapper_step (action_repeat : nat) (action : vector) (e : E)
  : outcome ((vector * float * bool) * E) :=
  Wrapper_step_loop action_repeat action 0%R None e.

(** [Wrapper.reset()] *)
Definition Wrapper_reset (e : E) : vector * E := env_reset envi e.

(** [Wrapper1]: [action_dim = env.action_space.shape[0]],
    [obs_dim = action_dim + env.observation_space.shape[0]]. *)
Definition Wrapper1_action_dim : nat := hd 0 (action_space_shape envi).
Definition Wrapper1_obs_dim : nat := Wrapper1_action_dim + observation_dim envi.

(** [Wrapper1.reset()]: the observation followed by [action_dim] zeros. *)
Definition Wrapper1_reset (e : E) : vector * E :=
  let r := env_reset envi e in
  (r.1 ++ np_zeros Wrapper1_action_dim, r.2).

(** The loop of [Wrapper1.step] (lines 404-414). *)
Fixpoint Wrapper1_step_loop (n : nat) (action : vector) (r : float)
    (bound : option (vector * bool)) (e : E)
  : outcome ((vector * float * bool) * E) :=
  match n with
  | 0 =>
      match bound with
      | Some (obs_, done_) =>
          match append_action obs_ action Wrapper1_action_dim with
          | Return ob => Return ((ob, r, done_), e)
          | UnboundLocalError => UnboundLocalError
          | ReshapeError => ReshapeError
          end
      | None => UnboundLocalError
      end
  | S k =>
      let '(obs_, reward_, done_, e') := env_step envi action e in
      let r' := (r + reward_)%R in
      if done_ then
        match append_action obs_ action Wrapper1_action_dim with
        | Return ob => Return ((ob, 0%R, done_), e')
        | UnboundLocalError => UnboundLocalError
        | ReshapeError => ReshapeError
        end
      else Wrapper1_step_loop k action r' (Some (obs_, done_)) e'
  end.

Definition Wrapper1_step (action_repeat : nat) (action : vector) (e : E)
  : outcome ((vector * float * bool) * E) :=
  Wrapper1_step_loop action_repeat action 0%R None e.

(** [Env_wrapper]: [flag] is ["obs"] or ["obs_act"]. *)
Inductive wrapper_flag : Type := flag_obs | flag_obs_act.

(** [Env_wrapper.reset()] *)
Definition Env_wrapper_reset (flag : wrapper_flag) (e : E) : vector * E :=
  let r := env_reset envi e in
  match flag with
  | flag_obs => r
  | flag_obs_act => (r.1 ++ np_zeros (hd 0 (action_space_shape envi)), r.2)
  end.

(** The loop of [Env_wrapper.step] (lines 438-441): no early exit. *)
Fixpoint Env_wrapper_step_loop (n : nat) (action : vector) (reward : float)
    (bound : option (vector * bool)) (e : E)
  : float * option (vector * bool) * E :=
  match n with
  | 0 => (reward, bound, e)
  | S k =>
      let '(obs, r, done, e') := env_step envi action e in
      let r1 := (r - 0.001)%R in
      Env_wrapper_step_loop k action (reward + r1)%R (Some (obs, done)) e'
  end.

(** [Env_wrapper.step(action)] (lines 436-446) *)
Definition Env_wrapper_step (flag : wrapper_flag) (action_repeat : nat)
    (action : vector) (e : E) : outcome ((vector * float * bool) * E) :=
  let '(reward, bound, e') :=
    Env_wrapper_step_loop action_repeat action 0%R None e in
  match bound with
  | None => UnboundLocalError
  | Some (obs, done) =>
      match flag with
      | flag_obs => Return ((obs, np_clip reward (-50) 1000, done), e')
      | flag_obs_act =>
          match append_action obs action (hd 0 (action_space_shape envi)) with
          | Return ob => Return ((ob, np_clip reward (-50) 1000, done), e')
          | UnboundLocalError => UnboundLocalError
          | ReshapeError => ReshapeError
          end
      end
  end.

(** What the wrapped environment answers to [n] consecutive steps with the
    same action, and its state afterwards. *)
Fixpoint repeated_steps (n : nat) (action : vector) (e : E)
  : list (vector * float * bool) * E :=
  match n with
  | 0 => ([], e)
  | S k =>
      let '(out, e') := env_step envi action e in
      let r := repeated_steps k action e' in
      (out :: r.1, r.2)
  end.
End Wrappers.

(** Sum of the rewards of a list of step results, in the order the loop adds
    them up, starting from [r0]. *)
Definition add_rewards (r0 : float) (outs : list (vector * float * bool)) : float :=
  foldl (λ acc out, (acc + out.1.2)%R) r0 outs.

(** Sum of the inner rewards as [Env_wrapper.step] adds them up, each
    lowered by [0.001], starting from [r0]. *)
Definition add_penalised_rewards (r0 : float)
    (outs : list (vector * float * bool)) : float :=
  foldl (λ acc out, (acc + (out.1.2 - 0.001))%R) r0 outs.

(** Row [k] of the five arrays of a batch. *)
Definition batch_row (batch : Batch) (k : nat) : option row :=
  match b_obs1 batch !! k, b_obs2 batch !! k, b_acts batch !! k,
        b_rews batch !! k, b_done batch !! k with
  | Some o1, Some o2, Some a, Some r, Some d => Some (o1, o2, a, r, d)
  | _, _, _, _, _ => None
  end.

(** Kinds of logger records, and how many records of a kind a log holds. *)
Definition is_log_step (e : log_entry) : bool :=
  match e with LogStep _ => true | _ => false end.
Definition is_log_episode (e : log_entry) : bool :=
  match e with LogEpisode _ _ => true | _ => false end.
Definition is_log_test (e : log_entry) : bool :=
  match e with LogTestEpisode _ _ => true | _ => false end.
Definition is_log_epoch (e : log_entry) : bool :=
  match e with LogEpoch _ _ => true | _ => false end.
Definition count_log (p : log_entry → bool) (l : list log_entry) : nat :=
  length (filter (λ e, p e = true) l).

(** Number of iterations [t'] among [t, t+1, ..., t+n-1] at which the end of
    epoch wrap-up runs ([t' > 0 and t' % steps_per_epoch == 0]). *)
Definition epoch_boundaries (spe t n : nat) : nat :=
  length (filter (λ t', 0 < t' ∧ t' `mod` spe = 0) (seq t n)).

(** ** float32 arithmetic

    The graph variables and the tensors fed to the graph are [tf.float32]
    (line 173 for [log_alpha]; lines 19-23 for the buffer).  The definitions
    above compute with real numbers; where a statement depends on rounding,
    the computation is repeated here bit for bit, with the IEEE 754
    binary32 operations (precision 24, round to nearest even) of
    [SpecFloat]. *)

Definition f32_prec : Z := 24%Z.
Definition f32_emax : Z := 128%Z.
Abbreviation f32 := (spec_float) (only parsing).

Definition f32_add (x y : f32) : f32 := SFadd f32_prec f32_emax x y.
Definition f32_sub (x y : f32) : f32 := SFsub f32_prec f32_emax x y.
Definition f32_mul (x y : f32) : f32 := SFmul f32_prec f32_emax x y.
Definition f32_div (x y : f32) : f32 := SFdiv f32_prec f32_emax x y.
Definition f32_sqrt (x : f32) : f32 := SFsqrt f32_prec f32_emax x.
Definition f32_opp (x : f32) : f32 := SFopp x.

(** The float32 of an integer, and the float32 nearest to [n / d] for two
    integers that are float32 numbers themselves: how a Python constant such
    as [0.9] reaches the graph. *)
Definition f32_of_Z (z : Z) : f32 :=
  binary_normalize f32_prec f32_emax z 0%Z false.
Definition f32_of_ratio (n d : Z) : f32 := f32_div (f32_of_Z n) (f32_of_Z d).

Definition f32_zero : f32 := S754_zero false.
Definition f32_one : f32 := f32_of_Z 1%Z.


(** [tf.train.AdamOptimizer] on a scalar float32 variable, with the defaults
    [beta1 = 0.9], [beta2 = 0.999], [epsilon = 1e-08]: the float32
    counterparts of [adam_lr_t], [adam_m], [adam_v] and [adam_var], with the
    same operations in the same order; [b1p] and [b2p] are the accumulators
    [beta1_power] and [beta2_power]. *)
Definition beta1_f32 : f32 := f32_of_ratio 9%Z 10%Z.
Definition beta2_f32 : f32 := f32_of_ratio 999%Z 1000%Z.
Definition epsilon_f32 : f32 := f32_of_ratio 1%Z 100000000%Z.

Definition adam_lr_t_f32 (lr b1p b2p : f32) : f32 :=
  f32_div (f32_mul lr (f32_sqrt (f32_sub f32_one b2p))) (f32_sub f32_one b1p).
Definition adam_m_f32 (m g : f32) : f32 :=
  f32_add (f32_mul beta1_f32 m) (f32_mul (f32_sub f32_one beta1_f32) g).
Definition adam_v_f32 (v g : f32) : f32 :=
  f32_add (f32_mul beta2_f32 v)
          (f32_mul (f32_sub f32_one beta2_f32) (f32_mul g g)).
Definition adam_var_f32 (lr_t x m v : f32) : f32 :=
  f32_sub x (f32_div (f32_mul lr_t m) (f32_add (f32_sqrt v) epsilon_f32)).

(** The first step of a fresh optimizer (slots zero, accumulators [beta1]
    and [beta2]) with learning rate [lr] on the variable [x], gradient [g]. *)
Definition adam_first_step_f32 (lr g x : f32) : f32 :=
  adam_var_f32 (adam_lr_t_f32 lr beta1_f32 beta2_f32) x
               (adam_m_f32 f32_zero g) (adam_v_f32 f32_zero g).

(** [target_entropy], and the gradient of [alpha_loss] in [log_alpha]
    (minus the batch mean of [logp_pi + target_entropy]), in float32; the
    sum runs from the first entry to the last. *)
Definition target_entropy_f32 (action_space_shape : list nat) : f32 :=
  f32_of_Z (- Z.of_nat (foldr Nat.mul 1%nat action_space_shape))%Z.
Definition f32_sum (l : list f32) : f32 := foldl f32_add f32_zero l.
Definition alpha_loss_grad_f32 (logp_pi : list f32) (tgt_entropy : f32) : f32 :=
  f32_div (f32_sum (map (λ x, f32_opp (f32_add x tgt_entropy)) logp_pi))
          (f32_of_Z (Z.of_nat (length logp_pi))).

(** [log_alpha] after the first [train_alpha_op] of a run: the variable
    starts at [1.0] and the optimizer's learning rate is the float32 of
    [lr * 0.01]. *)
Definition log_alpha_first_step_f32 (alpha_lr : f32) (logp_pi : list f32)
    (action_space_shape : list nat) : f32 :=
  adam_first_step_f32 alpha_lr
    (alpha_loss_grad_f32 logp_pi (target_entropy_f32 action_space_shape))
    f32_one.

(** A batch of four transitions with [logp_pi = 2.0] each, for a
    one-dimensional action space: [logp_pi + target_entropy] is [1.0] in
    every entry.  All sums and the mean are exact on it. *)
Definition logp_two : list f32 := replicate 4 (f32_of_Z 2%Z).
Definition alpha_lr_default : f32 := f32_of_ratio 5%Z 1000000%Z.

(** * Properties *)

(** ** ReplayBuffer *)

Lemma setitem_ok {A : Type} (a : list A) (i : nat) (x : A) :
  i < length a → setitem a i x = Ok (<[i := x]> a).
Proof. intros Hi. unfold setitem. by rewrite decide_True. Qed.

Lemma mod_slots_distinct (N j k : nat) :
  j < k → k < j + N → j `mod` N ≠ k `mod` N.
Proof.
  intros Hjk HkN Heq.
  pose proof (Nat.div_mod_eq j N) as Hj.
  pose proof (Nat.div_mod_eq k N) as Hk.
  rewrite Heq in Hj.
  assert (j `div` N < k `div` N) by nia.
  nia.
Qed.

Lemma buffer_wf_init (obs_dim act_dim N : nat) :
  0 < N → buffer_wf (ReplayBuffer_init obs_dim act_dim N).
Proof.
  intros HN. split; simpl; unfold np_zeros2, np_zeros;
    rewrite ?length_replicate; lia.
Qed.

(** A buffer of capacity 0 has no slot to write to. *)
Lemma store_capacity_zero : store (ReplayBuffer_init 1 1 0) tr0 = Raise IndexError.
Proof. reflexivity. Qed.

Lemma store_wf (b : ReplayBuffer) (t : Transition) :
  buffer_wf b →
  store b t = Ok
    {| obs1_buf := <[ptr b := t_obs t]> (obs1_buf b);
       obs2_buf := <[ptr b := t_next_obs t]> (obs2_buf b);
       acts_buf := <[ptr b := t_act t]> (acts_buf b);
       rews_buf := <[ptr b := t_rew t]> (rews_buf b);
       done_buf := <[ptr b := float_of_bool (t_done t)]> (done_buf b);
       ptr := (ptr b + 1) `mod` max_size b;
       size := Nat.min (size b + 1) (max_size b);
       max_size := max_size b |}.
Proof.
  intros [H1 H2 H3 H4 H5 Hp Hs]. unfold store.
  rewrite !setitem_ok by lia. simpl.
  unfold py_mod. rewrite decide_False by lia. done.
Qed.

Lemma store_preserves_wf (b b' : ReplayBuffer) (t : Transition) :
  buffer_wf b → store b t = Ok b' → buffer_wf b'.
Proof.
  intros Hwf Hst. rewrite (store_wf b t Hwf) in Hst.
  injection Hst as <-. destruct Hwf as [H1 H2 H3 H4 H5 Hp Hs].
  split; simpl; rewrite ?length_insert; try lia.
  apply Nat.mod_upper_bound. lia.
Qed.

Lemma row_at_store (b : ReplayBuffer) (t : Transition) (b' : ReplayBuffer) (i : nat) :
  buffer_wf b → store b t = Ok b' →
  row_at b' i = if decide (i = ptr b) then Some (stored t) else row_at b i.
Proof.
  intros Hwf Hst. rewrite (store_wf b t Hwf) in Hst.
  injection Hst as <-. destruct Hwf as [H1 H2 H3 H4 H5 Hp Hs].
  unfold row_at; simpl. destruct (decide (i = ptr b)) as [->|Hne].
  - rewrite !list_lookup_insert_eq by lia. done.
  - rewrite !list_lookup_insert_ne by done. done.
Qed.

Lemma filled_init (obs_dim act_dim N : nat) :
  0 < N → filled N [] (ReplayBuffer_init obs_dim act_dim N).
Proof.
  intros HN. split; simpl.
  - by apply buffer_wf_init.
  - done.
  - by rewrite Nat.Div0.mod_0_l.
  - done.
  - intros j t Hj. by rewrite lookup_nil in Hj.
Qed.

Lemma filled_store (N : nat) (ts : list Transition) (b : ReplayBuffer)
    (t : Transition) :
  0 < N → filled N ts b →
  ∃ b', store b t = Ok b' ∧ filled N (ts ++ [t]) b'.
Proof.
  intros HN [Hwf Hmax Hptr Hsize Hrows].
  eexists. split; [by apply store_wf|].
  assert (Hst := store_wf b t Hwf).
  split.
  - eapply store_preserves_wf; eauto.
  - simpl. done.
  - simpl. rewrite length_app. simpl. rewrite Hptr, Hmax.
    by rewrite Nat.Div0.add_mod_idemp_l.
  - simpl. rewrite length_app. simpl. lia.
  - intros j tj Hj Hle. rewrite length_app in Hle. simpl in Hle.
    rewrite (row_at_store b t _ _ Hwf Hst).
    apply lookup_app_Some in Hj as [Hj | [Hlen Hj]].
    + apply lookup_lt_Some in Hj as Hlt.
      rewrite decide_False.
      * apply Hrows; [done | lia].
      * rewrite Hptr. apply mod_slots_distinct; lia.
    + destruct (j - length ts) as [|n] eqn:Hn; simpl in Hj; [|by destruct n].
      injection Hj as ->.
      assert (j = length ts) as -> by lia.
      by rewrite decide_True.
Qed.

Lemma store_all_filled (N : nat) (ts0 ts : list Transition) (b0 : ReplayBuffer) :
  0 < N → filled N ts0 b0 →
  ∃ b, store_all b0 ts = Ok b ∧ filled N (ts0 ++ ts) b.
Proof.
  intros HN. revert ts0 b0.
  induction ts as [|t ts IH]; intros ts0 b0 Hf; simpl.
  - exists b0. by rewrite app_nil_r.
  - destruct (filled_store N ts0 b0 t HN Hf) as (b1 & Hst & Hf1).
    rewrite Hst. simpl.
    destruct (IH _ _ Hf1) as (b & Hall & Hfb).
    exists b. split; [done|]. by rewrite <- app_assoc in Hfb.
Qed.

(** C5. For every sequence [ts] of [store] calls on a fresh buffer of
    capacity [N]: every call succeeds; [ptr] is the number of calls modulo
    [N]; after [k <= N] calls [size = k], after [k > N] calls [size = N];
    every slot written so far holds one of the [N] most recent transitions
    (transition [j] sits in slot [j mod N]), so once [k >= N] the five
    arrays hold exactly the last [N] transitions, and the slot under the
    cursor, the next to be overwritten, holds the oldest of them. *)
Theorem store_keeps_most_recent (obs_dim act_dim N : nat) (ts : list Transition) :
  0 < N →
  ∃ b, store_all (ReplayBuffer_init obs_dim act_dim N) ts = Ok b ∧
    max_size b = N ∧
    ptr b = length ts `mod` N ∧
    (length ts ≤ N → size b = length ts) ∧
    (N < length ts → size b = N) ∧
    (∀ i, i < N → i < length ts →
       ∃ j t, j < length ts ∧ length ts ≤ j + N ∧ j `mod` N = i ∧
              ts !! j = Some t ∧ row_at b i = Some (stored t)) ∧
    (N ≤ length ts →
       ∃ t, ts !! (length ts - N) = Some t ∧
            row_at b (ptr b) = Some (stored t)).
Proof.
  intros HN.
  destruct (store_all_filled N [] ts _ HN (filled_init obs_dim act_dim N HN))
    as (b & Hall & [Hwf Hmax Hptr Hsize Hrows]).
  simpl in *. exists b. split; [done|].
  split; [done|]. split; [done|].
  split; [lia|]. split; [lia|]. split.
  - intros i HiN Hik.
    set (k := length ts) in *.
    set (q := (k - 1 - i) `div` N).
    pose proof (Nat.div_mod_eq (k - 1 - i) N) as Hdm.
    pose proof (Nat.mod_upper_bound (k - 1 - i) N ltac:(lia)) as Hub.
    fold q in Hdm.
    assert (Hjk : i + q * N < k) by nia.
    destruct (lookup_lt_is_Some_2 ts (i + q * N) Hjk) as [t Ht].
    exists (i + q * N), t.
    assert (Hmod : (i + q * N) `mod` N = i).
    { rewrite Nat.Div0.mod_add. by apply Nat.mod_small. }
    split; [done|]. split; [nia|]. split; [done|]. split; [done|].
    rewrite <- Hmod at 1. apply Hrows; [done | nia].
  - intros Hle.
    assert (Hlt : length ts - N < length ts) by lia.
    destruct (lookup_lt_is_Some_2 ts _ Hlt) as [t Ht].
    exists t. split; [done|].
    rewrite Hptr.
    replace (length ts `mod` N) with ((length ts - N) `mod` N).
    + apply Hrows; [done | lia].
    + replace (length ts) with ((length ts - N) + 1 * N) at 2 by lia.
      by rewrite Nat.Div0.mod_add.
Qed.

Lemma store_keeps_most_recent_witness :
  0 < 2 ∧
  ∃ b, store_all (ReplayBuffer_init 1 1 2) [tr0; tr1; tr2] = Ok b ∧
    max_size b = 2 ∧
    ptr b = length [tr0; tr1; tr2] `mod` 2 ∧
    (length [tr0; tr1; tr2] ≤ 2 → size b = length [tr0; tr1; tr2]) ∧
    (2 < length [tr0; tr1; tr2] → size b = 2) ∧
    (∀ i, i < 2 → i < length [tr0; tr1; tr2] →
       ∃ j t, j < length [tr0; tr1; tr2] ∧ length [tr0; tr1; tr2] ≤ j + 2 ∧
              j `mod` 2 = i ∧
              [tr0; tr1; tr2] !! j = Some t ∧ row_at b i = Some (stored t)) ∧
    (2 ≤ length [tr0; tr1; tr2] →
       ∃ t, [tr0; tr1; tr2] !! (length [tr0; tr1; tr2] - 2) = Some t ∧
            row_at b (ptr b) = Some (stored t)).
Proof.
  split; [lia|].
  apply (store_keeps_most_recent 1 1 2 [tr0; tr1; tr2]). lia.
Defined.

Lemma randint_ok (low high n : nat) (g : rng_state) :
  low < high →
  ∃ idxs, randint low high n g = Ok (idxs, mk_rng (raw g) (consumed g + n)) ∧
          length idxs = n ∧ Forall (λ i, low ≤ i < high) idxs.
Proof.
  intros Hlh. unfold randint. destruct (decide (n = 0)) as [->|Hn].
  - exists []. rewrite Nat.add_0_r. by destruct g.
  - rewrite decide_False by lia. eexists. split; [done|]. split.
    + by rewrite length_map, length_seq.
    + apply Forall_forall. intros i Hi.
      apply list_elem_of_fmap in Hi as (k & -> & _).
      pose proof (Nat.mod_upper_bound (raw g (consumed g + k)) (high - low)).
      lia.
Qed.

Lemma randint_empty_range (low high n : nat) (g : rng_state) :
  high ≤ low → 1 ≤ n → randint low high n g = Raise ValueError.
Proof.
  intros Hhl Hn. unfold randint.
  rewrite decide_False by lia. by rewrite decide_True.
Qed.

Lemma getitems_ok {A : Type} (a : list A) (idxs : list nat) :
  Forall (λ i, i < length a) idxs →
  ∃ xs, getitems a idxs = Ok xs ∧ length xs = length idxs.
Proof.
  induction 1 as [|i idxs Hi _ (xs & Hxs & Hlen)]; simpl.
  - by exists [].
  - destruct (lookup_lt_is_Some_2 a i Hi) as [x ->].
    rewrite Hxs. simpl. exists (x :: xs). split; [done|]. simpl. by rewrite Hlen.
Qed.

Lemma sample_batch_ok (b : ReplayBuffer) (n : nat) (g : rng_state) :
  buffer_wf b → 0 < size b →
  ∃ batch, sample_batch b n g = Ok (batch, b, mk_rng (raw g) (consumed g + n)) ∧
    length (b_obs1 batch) = n ∧ length (b_obs2 batch) = n ∧
    length (b_acts batch) = n ∧ length (b_rews batch) = n ∧
    length (b_done batch) = n.
Proof.
  intros [H1 H2 H3 H4 H5 Hp Hs] Hsz. unfold sample_batch.
  destruct (randint_ok 0 (size b) n g Hsz) as (idxs & -> & Hlen & Hin).
  simpl.
  assert (Hidx : ∀ {A} (a : list A), length a = max_size b →
                 Forall (λ i, i < length a) idxs).
  { intros A a Ha. eapply Forall_impl; [exact Hin|]. simpl. intros i ?. lia. }
  destruct (getitems_ok _ _ (Hidx _ _ H1)) as (o1 & -> & L1).
  destruct (getitems_ok _ _ (Hidx _ _ H2)) as (o2 & -> & L2).
  destruct (getitems_ok _ _ (Hidx _ _ H3)) as (ac & -> & L3).
  destruct (getitems_ok _ _ (Hidx _ _ H4)) as (rw & -> & L4).
  destruct (getitems_ok _ _ (Hidx _ _ H5)) as (dn & -> & L5).
  simpl. eexists. split; [done|]. simpl. repeat split; congruence.
Qed.

Lemma sample_batch_empty (b : ReplayBuffer) (n : nat) (g : rng_state) :
  size b = 0 → 1 ≤ n → sample_batch b n g = Raise ValueError.
Proof.
  intros Hsz Hn. unfold sample_batch.
  rewrite randint_empty_range by lia. done.
Qed.

Lemma sample_batch_same_buffer (b : ReplayBuffer) (n : nat) (g : rng_state)
    (batch : Batch) (b' : ReplayBuffer) (g' : rng_state) :
  sample_batch b n g = Ok (batch, b', g') → b' = b.
Proof.
  unfold sample_batch.
  destruct (randint 0 (size b) n g) as [[idxs g1]|]; simpl; [|done].
  destruct (getitems (obs1_buf b) idxs); simpl; [|done].
  destruct (getitems (obs2_buf b) idxs); simpl; [|done].
  destruct (getitems (acts_buf b) idxs); simpl; [|done].
  destruct (getitems (rews_buf b) idxs); simpl; [|done].
  destruct (getitems (done_buf b) idxs); simpl; [|done].
  by intros [= _ <- _].
Qed.

Lemma train_burst_empty {E : Type} (envi : environment E) (net : networks)
    (layout : ac_layout) (cfg : config) (st : loop_state E) (k : nat) :
  size (replay_buffer st) = 0 → 1 ≤ batch_size cfg →
  train_burst envi net layout cfg (S k) st = Raise ValueError.
Proof.
  intros Hsz Hb. simpl. by rewrite sample_batch_empty.
Qed.

Lemma buf_one_wf : buffer_wf buf_one.
Proof. split; simpl; lia. Qed.

(** C9. With [batch_size >= 1], [sample_batch] on an empty buffer
    ([size = 0]) raises (the ValueError of [np.random.randint] on an empty
    range) and returns no batch; the training burst does not catch it: a
    burst of at least one cycle, and the end-of-episode code that runs it,
    raise the same error.  On a buffer with [size > 0] the call returns a
    batch whose five arrays have [batch_size] rows. *)
Theorem sample_batch_needs_nonempty (b : ReplayBuffer) (n : nat) (g : rng_state) :
  1 ≤ n →
  (size b = 0 → sample_batch b n g = Raise ValueError) ∧
  (size b = 0 →
   ∀ (E : Type) (envi : environment E) (net : networks) (layout : ac_layout)
     (cfg : config) (st : loop_state E) (k : nat),
     replay_buffer st = b → batch_size cfg = n →
     train_burst envi net layout cfg (S k) st = Raise ValueError ∧
     (1 ≤ ep_len st → end_of_episode envi net layout cfg st = Raise ValueError)) ∧
  (buffer_wf b → 0 < size b →
   ∃ batch g', sample_batch b n g = Ok (batch, b, g') ∧
     length (b_obs1 batch) = n ∧ length (b_obs2 batch) = n ∧
     length (b_acts batch) = n ∧ length (b_rews batch) = n ∧
     length (b_done batch) = n).
Proof.
  intros Hn. split; [|split].
  - intros Hsz. by apply sample_batch_empty.
  - intros Hsz E envi net layout cfg st k Hb Hbs. split.
    + apply train_burst_empty; [by rewrite Hb | lia].
    + intros Hlen. unfold end_of_episode.
      destruct (ep_len st) as [|m]; [lia|].
      rewrite train_burst_empty; [done | by rewrite Hb | lia].
  - intros Hwf Hsz.
    destruct (sample_batch_ok b n g Hwf Hsz) as (batch & Hs & Hl).
    by exists batch, (mk_rng (raw g) (consumed g + n)).
Qed.

Lemma sample_batch_needs_nonempty_witness :
  1 ≤ 2 ∧ buffer_wf buf_one ∧ 0 < size buf_one ∧
  ∃ batch g', sample_batch buf_one 2 gen0 = Ok (batch, buf_one, g') ∧
     length (b_obs1 batch) = 2 ∧ length (b_obs2 batch) = 2 ∧
     length (b_acts batch) = 2 ∧ length (b_rews batch) = 2 ∧
     length (b_done batch) = 2.
Proof.
  assert (H12 : 1 ≤ 2) by lia.
  assert (Hsz : 0 < size buf_one) by (simpl; lia).
  split; [exact H12|]. split; [exact buf_one_wf|]. split; [exact Hsz|].
  exact (proj2 (proj2 (sample_batch_needs_nonempty buf_one 2 gen0 H12))
           buf_one_wf Hsz).
Defined.

(** C10. [sample_batch] never mutates the buffer: whenever the call
    returns, the buffer after the call has the same cursor, size, capacity
    and the same five arrays as before; on every well-formed buffer with
    [size > 0] the call does return, for every [batch_size], and its only
    effect is on the random generator, which has [batch_size] more draws
    consumed. *)
Theorem sample_batch_does_not_mutate (b : ReplayBuffer) (n : nat) (g : rng_state) :
  (∀ batch b' g', sample_batch b n g = Ok (batch, b', g') →
     ptr b' = ptr b ∧ size b' = size b ∧ max_size b' = max_size b ∧
     obs1_buf b' = obs1_buf b ∧ obs2_buf b' = obs2_buf b ∧
     acts_buf b' = acts_buf b ∧ rews_buf b' = rews_buf b ∧
     done_buf b' = done_buf b) ∧
  (buffer_wf b → 0 < size b →
   ∃ batch b' g', sample_batch b n g = Ok (batch, b', g') ∧ b' = b ∧
     consumed g' = consumed g + n).
Proof.
  split.
  - intros batch b' g' Hs.
    by rewrite (sample_batch_same_buffer _ _ _ _ _ _ Hs).
  - intros Hwf Hsz.
    destruct (sample_batch_ok b n g Hwf Hsz) as (batch & Hs & _).
    by exists batch, b, (mk_rng (raw g) (consumed g + n)).
Qed.

Lemma sample_batch_does_not_mutate_witness :
  buffer_wf buf_one ∧ 0 < size buf_one ∧
  ∃ batch b' g', sample_batch buf_one 3 gen0 = Ok (batch, b', g') ∧
    b' = buf_one ∧ consumed g' = consumed gen0 + 3.
Proof.
  assert (Hsz : 0 < size buf_one) by (simpl; lia).
  split; [exact buf_one_wf|]. split; [exact Hsz|].
  exact (proj2 (sample_batch_does_not_mutate buf_one 3 gen0) buf_one_wf Hsz).
Defined.

(** ** ObjectiveBuilder *)

Lemma q_backup_lookup (r_ph d_ph vb : tensor) (gamma : float) (i : nat)
    (r d v : float) :
  r_ph !! i = Some r → d_ph !! i = Some d → vb !! i = Some v →
  q_backup r_ph gamma d_ph vb !! i = Some (r + gamma * (1 - d) * v)%R.
Proof.
  intros Hr Hd Hv. unfold q_backup, t_add, t_mul, t_scale, t_rsub.
  rewrite !lookup_zip_with, !list_lookup_fmap, Hr, Hd, Hv. done.
Qed.

Lemma v_backup_lookup (q1 q2 logp : tensor) (alpha : float) (i : nat)
    (a1 a2 l : float) :
  q1 !! i = Some a1 → q2 !! i = Some a2 → logp !! i = Some l →
  v_backup (min_q_pi q1 q2) alpha logp !! i = Some (Rmin a1 a2 - alpha * l)%R.
Proof.
  intros H1 H2 Hl. unfold v_backup, min_q_pi, t_sub, t_min, t_scale.
  rewrite !lookup_zip_with, !list_lookup_fmap, H1, H2, Hl. done.
Qed.

(** C2. For every batch entry [i], the regression target is
    [reward + gamma * (1 - terminal) * v_backup] with
    [v_backup = min(q1_targ, q2_targ) - alpha * logp_pi2]; when the entry is
    terminal (the stored flag is [float_of_bool true = 1]) the target is the
    reward alone, whatever the target Q values and the log-probability are. *)
Theorem q_backup_terminal (r_ph d_ph q1 q2 logp : tensor) (gamma alpha : float)
    (i : nat) (r d a1 a2 l : float) :
  r_ph !! i = Some r → d_ph !! i = Some d →
  q1 !! i = Some a1 → q2 !! i = Some a2 → logp !! i = Some l →
  q_backup_graph r_ph d_ph gamma alpha q1 q2 logp !! i
    = Some (r + gamma * (1 - d) * (Rmin a1 a2 - alpha * l))%R ∧
  q_backup r_ph gamma d_ph (v_backup (min_q_pi q1 q2) alpha logp) !! i
    = Some (r + gamma * (1 - d) * (Rmin a1 a2 - alpha * l))%R ∧
  (d = float_of_bool true →
   (gamma * (1 - d) = 0)%R ∧
   q_backup_graph r_ph d_ph gamma alpha q1 q2 logp !! i = Some r ∧
   ∀ (q1' q2' logp' : tensor) (alpha' a1' a2' l' : float),
     q1' !! i = Some a1' → q2' !! i = Some a2' → logp' !! i = Some l' →
     q_backup_graph r_ph d_ph gamma alpha' q1' q2' logp' !! i = Some r).
Proof.
  intros Hr Hd H1 H2 Hl.
  assert (Hq : ∀ q1 q2 logp alpha a1 a2 l,
             q1 !! i = Some a1 → q2 !! i = Some a2 → logp !! i = Some l →
             q_backup_graph r_ph d_ph gamma alpha q1 q2 logp !! i
             = Some (r + gamma * (1 - d) * (Rmin a1 a2 - alpha * l))%R).
  { intros. unfold q_backup_graph.
    apply q_backup_lookup; [done | done |]. by apply v_backup_lookup. }
  split; [by apply Hq|]. split; [by apply Hq|].
  intros ->. simpl. split; [lra|]. split.
  - rewrite (Hq _ _ _ _ _ _ _ H1 H2 Hl). simpl. f_equal. lra.
  - intros q1' q2' logp' alpha' a1' a2' l' H1' H2' Hl'.
    rewrite (Hq _ _ _ _ _ _ _ H1' H2' Hl'). simpl. f_equal. lra.
Qed.

Lemma q_backup_terminal_witness :
  [1%R] !! 0 = Some 1%R ∧ [1%R] !! 0 = Some (float_of_bool true) ∧
  [5%R] !! 0 = Some 5%R ∧ [7%R] !! 0 = Some 7%R ∧ [2%R] !! 0 = Some 2%R ∧
  q_backup_graph [1%R] [1%R] 0.99%R 0.2%R [5%R] [7%R] [2%R] !! 0 = Some 1%R.
Proof.
  repeat (split; [reflexivity|]).
  refine (proj1 (proj2 (proj2 (proj2
    (q_backup_terminal [1%R] [1%R] [5%R] [7%R] [2%R] 0.99%R 0.2%R 0
       1%R (float_of_bool true) 5%R 7%R 2%R _ _ _ _ _)) _)));
    reflexivity.
Defined.

(** ** Variables and the target network *)

Lemma filter_map_all {A : Type} (P : variable → Prop) `{∀ v, Decision (P v)}
    (f : A → variable) (l : list A) :
  (∀ x, P (f x)) → filter P (map f l) = map f l.
Proof.
  intros HP. induction l as [|x l IH]; [done|].
  simpl. rewrite filter_cons_True by apply HP. by rewrite IH.
Qed.

Lemma filter_map_none {A : Type} (P : variable → Prop) `{∀ v, Decision (P v)}
    (f : A → variable) (l : list A) :
  (∀ x, ¬ P (f x)) → filter P (map f l) = [].
Proof.
  intros HP. induction l as [|x l IH]; [done|].
  simpl. rewrite filter_cons_False by apply HP. by rewrite IH.
Qed.

Lemma filter_log_alpha (alpha : alpha_cfg) (s : scope_name) :
  filter (λ v, in_scope s v = true)
    (match alpha with AlphaAuto => [LogAlpha] | AlphaFixed _ => [] end) = [].
Proof. destruct alpha; [done|]. by destruct s. Qed.

Lemma get_vars_main (layout : ac_layout) (alpha : alpha_cfg) :
  get_vars layout alpha s_main = map (NetVar Main) layout.
Proof.
  unfold get_vars, global_variables. rewrite !filter_app.
  rewrite (filter_map_all (λ v, in_scope s_main v = true) (NetVar Main))
    by (by intros [[] ?]).
  rewrite (filter_map_none (λ v, in_scope s_main v = true) (NetVar Target))
    by (by intros [[] ?]).
  rewrite filter_log_alpha. by rewrite !app_nil_r.
Qed.

Lemma get_vars_target (layout : ac_layout) (alpha : alpha_cfg) :
  get_vars layout alpha s_target = map (NetVar Target) layout.
Proof.
  unfold get_vars, global_variables. rewrite !filter_app.
  rewrite (filter_map_none (λ v, in_scope s_target v = true) (NetVar Main))
    by (by intros [[] ?]).
  rewrite (filter_map_all (λ v, in_scope s_target v = true) (NetVar Target))
    by (by intros [[] ?]).
  rewrite filter_log_alpha. by rewrite !app_nil_r.
Qed.

Lemma zip_map_same {A B C : Type} (f : A → B) (g : A → C) (l : list A) :
  zip (map f l) (map g l) = map (λ x, (f x, g x)) l.
Proof. induction l as [|x l IH]; [done|]. simpl. by rewrite IH. Qed.

Lemma main_target_pairs_layout (layout : ac_layout) (alpha : alpha_cfg) :
  main_target_pairs layout alpha
  = map (λ x, (NetVar Main x, NetVar Target x)) layout.
Proof.
  unfold main_target_pairs.
  rewrite get_vars_main, get_vars_target. apply zip_map_same.
Qed.

(** A group of assignments [v_targ := f v_targ v_main] over the pairs of a
    layout: main variables and [log_alpha] are not written; a target
    variable is rewritten once per occurrence of its name. *)
Lemma assign_pairs_spec (f : list R → list R → list R) (l : ac_layout)
    (s : params) :
  let s' := foldl (λ acc (p : variable * variable),
                     <[p.2 := f (acc p.2) (acc p.1)]> acc) s
                  (map (λ x, (NetVar Main x, NetVar Target x)) l) in
  (∀ x, s' (NetVar Main x) = s (NetVar Main x)) ∧
  s' LogAlpha = s LogAlpha ∧
  (∀ x, s' (NetVar Target x)
        = Nat.iter (length (filter (λ y, y = x) l))
                   (λ t, f t (s (NetVar Main x))) (s (NetVar Target x))).
Proof.
  revert s. induction l as [|y l IH]; intros s; [done|].
  cbn [map foldl fst snd].
  specialize (IH (<[NetVar Target y := f (s (NetVar Target y))
                                         (s (NetVar Main y))]> s)).
  simpl in IH. destruct IH as (IHm & IHa & IHt).
  split; [|split].
  - intros x. rewrite IHm. by rewrite fn_lookup_insert_ne.
  - rewrite IHa. by rewrite fn_lookup_insert_ne.
  - intros x. rewrite IHt. rewrite (fn_lookup_insert_ne _ _ (NetVar Main x)) by done.
    change (filter (λ y0, y0 = x) (y :: l))
      with (if decide (y = x) then y :: filter (λ y0, y0 = x) l
            else filter (λ y0, y0 = x) l).
    destruct (decide (y = x)) as [->|Hne].
    + rewrite fn_lookup_insert. simpl length. by rewrite Nat.iter_succ_r.
    + rewrite fn_lookup_insert_ne by congruence. done.
Qed.

Lemma occurrences_pos (l : ac_layout) (x : ac_var) :
  x ∈ l → 0 < length (filter (λ y, y = x) l).
Proof.
  intros Hx.
  assert (Hin : x ∈ filter (λ y, y = x) l) by (by apply list_elem_of_filter).
  destruct (filter (λ y, y = x) l); [by apply elem_of_nil in Hin | simpl; lia].
Qed.

Lemma occurrences_NoDup (l : ac_layout) (x : ac_var) :
  NoDup l → x ∈ l → length (filter (λ y, y = x) l) = 1.
Proof.
  induction 1 as [|y l Hy Hnd IH]; intros Hx; [by apply elem_of_nil in Hx|].
  destruct (decide (y = x)) as [->|Hne].
  - rewrite filter_cons_True by done. simpl. f_equal.
    destruct (filter (λ y, y = x) l) as [|z k] eqn:Hf; [done|].
    assert (Hz : z ∈ filter (λ y, y = x) l) by (rewrite Hf; left).
    apply list_elem_of_filter in Hz as [-> Hz]. done.
  - rewrite filter_cons_False by done. apply IH.
    apply elem_of_cons in Hx as [->|Hx]; done.
Qed.

Lemma polyak_one (t m : list R) :
  length t ≤ length m →
  t_add (t_scale 1 t) (t_scale (1 - 1) m) = t.
Proof.
  revert m. induction t as [|a t IH]; intros [|b m] Hlen; simpl in *;
    try done; try lia.
  unfold t_add, t_scale in *. simpl. rewrite IH by lia. f_equal. lra.
Qed.

Lemma polyak_zero (t m : list R) :
  length m ≤ length t →
  t_add (t_scale 0 t) (t_scale (1 - 0) m) = m.
Proof.
  revert m. induction t as [|a t IH]; intros [|b m] Hlen; simpl in *;
    try done; try lia.
  unfold t_add, t_scale in *. simpl. rewrite IH by lia. f_equal. lra.
Qed.

Lemma iter_fixed {A : Type} (g : A → A) (a : A) (n : nat) :
  g a = a → Nat.iter n g a = a.
Proof. intros Hg. induction n as [|n IH]; simpl; [done|]. by rewrite IH. Qed.

Lemma iter_const {A : Type} (c a : A) (n : nat) :
  0 < n → Nat.iter n (λ _, c) a = c.
Proof. destruct n; [lia|done]. Qed.

Lemma target_init_spec (layout : ac_layout) (alpha : alpha_cfg) (s : params)
    (x : ac_var) :
  target_init layout alpha s (NetVar Main x) = s (NetVar Main x) ∧
  (x ∈ layout →
   target_init layout alpha s (NetVar Target x) = s (NetVar Main x)).
Proof.
  unfold target_init. rewrite main_target_pairs_layout.
  destruct (assign_pairs_spec (λ _ m, m) layout s) as (Hm & _ & Ht).
  split; [apply Hm|]. intros Hx. rewrite Ht.
  apply iter_const. by apply occurrences_pos.
Qed.

Lemma target_update_spec (layout : ac_layout) (alpha : alpha_cfg)
    (polyak : R) (s : params) :
  (∀ x, target_update layout alpha polyak s (NetVar Main x) = s (NetVar Main x)) ∧
  target_update layout alpha polyak s LogAlpha = s LogAlpha ∧
  (∀ x, target_update layout alpha polyak s (NetVar Target x)
        = Nat.iter (length (filter (λ y, y = x) layout))
            (λ t, t_add (t_scale polyak t)
                        (t_scale (1 - polyak) (s (NetVar Main x))))
            (s (NetVar Target x))).
Proof.
  unfold target_update. rewrite main_target_pairs_layout.
  apply (assign_pairs_spec
           (λ t m, t_add (t_scale polyak t) (t_scale (1 - polyak) m))).
Qed.

Lemma pair_in_layout (layout : ac_layout) (alpha : alpha_cfg)
    (v_main v_targ : variable) :
  (v_main, v_targ) ∈ main_target_pairs layout alpha ↔
  ∃ x, x ∈ layout ∧ v_main = NetVar Main x ∧ v_targ = NetVar Target x.
Proof.
  rewrite main_target_pairs_layout. rewrite list_elem_of_fmap. split.
  - intros (x & [= -> ->] & Hx). by exists x.
  - intros (x & Hx & -> & ->). by exists x.
Qed.

Lemma target_vars_paired (layout : ac_layout) (alpha : alpha_cfg) (v : variable) :
  v ∈ get_vars layout alpha s_target →
  ∃ v_main, (v_main, v) ∈ main_target_pairs layout alpha.
Proof.
  rewrite get_vars_target. intros (x & -> & Hx)%list_elem_of_fmap.
  exists (NetVar Main x). apply pair_in_layout. by exists x.
Qed.

(** C3. For every pair [(v_main, v_targ)] that [target_init] and
    [target_update] iterate over: after [target_init] the target tensor
    equals the main tensor (also in the state the main loop starts from);
    one Polyak step with [polyak = 1] leaves the target tensor unchanged, one
    with [polyak = 0] makes it equal to the main tensor; in general the step
    computes [polyak * target + (1 - polyak) * main] elementwise.  Main
    tensors are not written by either. *)
Theorem target_init_and_polyak (layout : ac_layout) (alpha : alpha_cfg)
    (s : params) (v_main v_targ : variable) :
  (v_main, v_targ) ∈ main_target_pairs layout alpha →
  (target_init layout alpha s v_targ = target_init layout alpha s v_main ∧
   target_init layout alpha s v_main = s v_main) ∧
  (∀ (E : Type) (envi : environment E) (cfg : config) (w0 : variable → list R)
     (e0 te0 : E) (g0 : rng_state),
     vars (sess (initial_state envi layout cfg w0 e0 te0 g0)) v_targ
     = vars (sess (initial_state envi layout cfg w0 e0 te0 g0)) v_main) ∧
  (length (s v_main) = length (s v_targ) →
   target_update layout alpha 1 s v_targ = s v_targ ∧
   target_update layout alpha 0 s v_targ = s v_main) ∧
  (NoDup layout →
   ∀ polyak : R,
     target_update layout alpha polyak s v_targ
     = t_add (t_scale polyak (s v_targ)) (t_scale (1 - polyak) (s v_main))) ∧
  (∀ polyak : R, target_update layout alpha polyak s v_main = s v_main).
Proof.
  intros (x & Hx & -> & ->)%pair_in_layout.
  assert (Hinit : ∀ al s0, target_init layout al s0 (NetVar Target x)
                           = target_init layout al s0 (NetVar Main x)).
  { intros al s0. destruct (target_init_spec layout al s0 x) as [Hm Ht].
    by rewrite Hm, Ht. }
  split; [|split; [|split; [|split]]].
  - split; [apply Hinit|]. apply (target_init_spec layout alpha s x).
  - intros E envi cfg w0 e0 te0 g0. simpl. apply Hinit.
  - intros Hlen.
    destruct (target_update_spec layout alpha 1 s) as (_ & _ & H1).
    destruct (target_update_spec layout alpha 0 s) as (_ & _ & H0).
    rewrite H1, H0. split.
    + apply iter_fixed. apply polyak_one. lia.
    + pose proof (occurrences_pos layout x Hx) as Hpos.
      destruct (length (filter (λ y, y = x) layout)) as [|n]; [lia|].
      simpl. clear Hpos. induction n as [|n IH]; simpl.
      * apply polyak_zero. lia.
      * rewrite IH. apply polyak_zero. lia.
  - intros Hnd polyak.
    destruct (target_update_spec layout alpha polyak s) as (_ & _ & Hp).
    rewrite Hp, (occurrences_NoDup layout x Hnd Hx). done.
  - intros polyak.
    destruct (target_update_spec layout alpha polyak s) as (Hm & _ & _).
    apply Hm.
Qed.

Lemma target_init_and_polyak_witness :
  (NetVar Main (Q1, 0), NetVar Target (Q1, 0))
    ∈ main_target_pairs layout3 (AlphaFixed 0.2%R) ∧
  length (w_ex (NetVar Main (Q1, 0))) = length (w_ex (NetVar Target (Q1, 0))) ∧
  target_init layout3 (AlphaFixed 0.2%R) w_ex (NetVar Target (Q1, 0))
    = target_init layout3 (AlphaFixed 0.2%R) w_ex (NetVar Main (Q1, 0)) ∧
  target_update layout3 (AlphaFixed 0.2%R) 1 w_ex (NetVar Target (Q1, 0))
    = w_ex (NetVar Target (Q1, 0)) ∧
  target_update layout3 (AlphaFixed 0.2%R) 0 w_ex (NetVar Target (Q1, 0))
    = w_ex (NetVar Main (Q1, 0)).
Proof.
  assert (Hin : (NetVar Main (Q1, 0), NetVar Target (Q1, 0))
                  ∈ main_target_pairs layout3 (AlphaFixed 0.2%R)).
  { vm_compute. apply list_elem_of_here || (right; left). }
  assert (Hlen : length (w_ex (NetVar Main (Q1, 0)))
                 = length (w_ex (NetVar Target (Q1, 0)))) by reflexivity.
  pose proof (target_init_and_polyak layout3 (AlphaFixed 0.2%R) w_ex
                _ _ Hin) as (Hi & _ & Hp & _ & _).
  split; [exact Hin|]. split; [exact Hlen|].
  split; [exact (proj1 Hi)|]. exact (Hp Hlen).
Defined.

Lemma adam_minimize_frame (lr : R) (grads : variable → list R)
    (var_list : list variable) (opt : adam_state) (s : params) (v : variable) :
  v ∉ var_list → (adam_minimize lr grads var_list opt s).2 v = s v.
Proof.
  unfold adam_minimize. simpl.
  generalize (adam_lr_t lr (S (adam_t opt))). intros lr_t.
  generalize opt. revert s.
  induction var_list as [|x l IH]; intros s o Hv; [done|].
  apply not_elem_of_cons in Hv as [Hne Hv]. simpl.
  rewrite IH by done. by rewrite fn_lookup_insert_ne.
Qed.

Lemma target_not_in_main_scopes (layout : ac_layout) (alpha : alpha_cfg)
    (x : subnet * nat) (sn : scope_name) :
  sn ≠ s_target → NetVar Target x ∉ get_vars layout alpha sn.
Proof.
  intros Hsn Hin. unfold get_vars in Hin.
  apply list_elem_of_filter in Hin as [Hin _].
  destruct x as [[] ?], sn; done.
Qed.

(** C4 as stated fails: an actor-critic with one policy variable has that
    variable in the target scope too, so the target parameter set is not
    made of Q-network variables only. *)
Lemma target_scope_has_policy_variable :
  ¬ (∀ v, v ∈ get_vars layout3 (AlphaFixed 0.2%R) s_target →
          ∃ i, v = NetVar Target (Q1, i) ∨ v = NetVar Target (Q2, i)).
Proof.
  intros H. destruct (H (NetVar Target (Pi, 0))) as (i & [Hi | Hi]).
  - rewrite get_vars_target. simpl. left.
  - discriminate Hi.
  - discriminate Hi.
Qed.

(** C4, amended. The target parameter set mirrors the whole main parameter
    set that [actor_critic] creates, variable by variable: the policy's
    variables as well as those of the two Q-networks.  No target variable is
    in the variable list of an optimizer, and none is changed by an
    optimizer step ([train_pi_op], [train_value_op], [train_alpha_op]); the
    writes to target variables are those of [target_init] and
    [target_update]. *)
Theorem target_mirrors_main_and_is_not_trained (net : networks)
    (layout : ac_layout) (alpha : alpha_cfg) (shape : list nat) (lr : R)
    (b : Batch) (ss : session) (x : subnet * nat) :
  get_vars layout alpha s_target = map target_of (get_vars layout alpha s_main) ∧
  (∀ i, (Pi, i) ∈ layout → NetVar Target (Pi, i) ∈ get_vars layout alpha s_target) ∧
  (NetVar Target x ∉ get_vars layout alpha s_main_pi) ∧
  (NetVar Target x ∉ get_vars layout alpha s_main_q) ∧
  vars (train_pi_op net layout alpha lr b ss) (NetVar Target x)
    = vars ss (NetVar Target x) ∧
  vars (train_value_op net layout alpha lr b ss) (NetVar Target x)
    = vars ss (NetVar Target x) ∧
  vars (train_alpha_op net shape lr b ss) (NetVar Target x)
    = vars ss (NetVar Target x).
Proof.
  assert (Hpi := target_not_in_main_scopes layout alpha x s_main_pi).
  assert (Hq := target_not_in_main_scopes layout alpha x s_main_q).
  split; [|split; [|split; [|split; [|split; [|split]]]]].
  - rewrite get_vars_target, get_vars_main.
    rewrite map_map. done.
  - intros i Hi. rewrite get_vars_target.
    apply list_elem_of_fmap. by exists (Pi, i).
  - by apply Hpi.
  - by apply Hq.
  - unfold train_pi_op. cbn [vars]. apply adam_minimize_frame. by apply Hpi.
  - unfold train_value_op. cbn [vars]. apply adam_minimize_frame. by apply Hq.
  - unfold train_alpha_op. cbn [vars]. apply adam_minimize_frame.
    intros Hin. apply list_elem_of_singleton in Hin. discriminate Hin.
Qed.

(** ** ParameterUpdater: order of the updates in one [sess.run(step_ops)] *)

Lemma snoc_split {A : Type} (tr l1 l2 : list A) (e x : A) :
  tr ++ [e] = l1 ++ x :: l2 →
  (l2 = [] ∧ l1 = tr ∧ x = e) ∨ (∃ l2', l2 = l2' ++ [e] ∧ tr = l1 ++ x :: l2').
Proof.
  destruct l2 as [|y l2' _] using rev_ind; intros Heq.
  - apply app_inj_tail in Heq as [-> ->]. by left.
  - change (l1 ++ x :: l2' ++ [y]) with (l1 ++ (x :: l2') ++ [y]) in Heq.
    rewrite app_assoc in Heq.
    apply app_inj_tail in Heq as [-> ->]. right. by exists l2'.
Qed.

Section Order.
Context (net : networks) (layout : list (subnet * nat)) (alpha : alpha_cfg).
Context (shape : list nat) (lr polyak : R) (b : Batch) (ss : session).

(** What every execution maintains: no event occurs twice; an operation
    starts only after each of its control inputs has finished, and finishes
    only after it has started. *)
Lemma execution_invariant (tr : list event) (ss' : session) :
  execution net layout alpha shape lr polyak b ss (tr, ss') →
  NoDup tr ∧
  (∀ l1 l2 o, tr = l1 ++ Start o :: l2 →
     ∀ d, d ∈ control_inputs o → Finish d ∈ l1) ∧
  (∀ l1 l2 o, tr = l1 ++ Finish o :: l2 → Start o ∈ l1).
Proof.
  unfold execution. intros Hrtc.
  change tr with (tr, ss').1.
  revert Hrtc. generalize (tr, ss'). clear tr ss'.
  apply (rtc_ind_r (λ st : list event * session,
    NoDup st.1 ∧
    (∀ l1 l2 o, st.1 = l1 ++ Start o :: l2 →
       ∀ d, d ∈ control_inputs o → Finish d ∈ l1) ∧
    (∀ l1 l2 o, st.1 = l1 ++ Finish o :: l2 → Start o ∈ l1))).
  - simpl. split; [constructor|].
    split; intros l1 l2 o Heq; by destruct l1.
  - intros st1 st2 _ Hstep (Hnd & Hs & Hf).
    inversion Hstep as [tr0 ss0 o Hfetch Hnew Hdeps
                       |tr0 ss0 o Hstarted Hnew]; subst; simpl in *.
    + split; [|split].
      * apply NoDup_app. split; [done|]. split; [|apply NoDup_singleton].
        intros e He ->%list_elem_of_singleton. done.
      * intros l1 l2 o' Heq d Hd.
        apply snoc_split in Heq as [(-> & -> & [= ->]) | (l2' & -> & ->)].
        -- by apply Hdeps.
        -- by eapply Hs.
      * intros l1 l2 o' Heq.
        apply snoc_split in Heq as [(-> & -> & [=]) | (l2' & -> & ->)].
        by eapply Hf.
    + split; [|split].
      * apply NoDup_app. split; [done|]. split; [|apply NoDup_singleton].
        intros e He ->%list_elem_of_singleton. done.
      * intros l1 l2 o' Heq d Hd.
        apply snoc_split in Heq as [(-> & -> & [=]) | (l2' & -> & ->)].
        by eapply Hs.
      * intros l1 l2 o' Heq.
        apply snoc_split in Heq as [(-> & -> & [= ->]) | (l2' & -> & ->)].
        -- done.
        -- by eapply Hf.
Qed.

(** In a duplicate-free trace an event found after a prefix is not in the
    prefix. *)
Lemma NoDup_prefix_notin (l1 l2 : list event) (e : event) :
  NoDup (l1 ++ e :: l2) → e ∉ l1.
Proof.
  intros (_ & Hdisj & _)%NoDup_app He. apply (Hdisj e He). left.
Qed.

(** If [Finish d] is among the events before some point, so is [Start d],
    and so are the finishes of the control inputs of [d]. *)
Lemma finished_before (tr l1 l2 : list event) (ss' : session) (d : op) :
  execution net layout alpha shape lr polyak b ss (tr, ss') → tr = l1 ++ l2 → Finish d ∈ l1 →
  Start d ∈ l1 ∧ ∀ c, c ∈ control_inputs d → Finish c ∈ l1.
Proof.
  intros Hex -> Hin. destruct (execution_invariant _ _ Hex) as (_ & Hs & Hf).
  apply list_elem_of_split in Hin as (a & c & ->).
  assert (Hst : Start d ∈ a).
  { eapply (Hf a (c ++ l2)). by rewrite <- app_assoc. }
  split; [apply elem_of_app; by left|].
  intros c0 Hc0.
  apply list_elem_of_split in Hst as (a1 & a2 & ->).
  apply elem_of_app. left. apply elem_of_app. left.
  eapply (Hs a1 (a2 ++ Finish d :: c ++ l2)); [|done].
  by rewrite <- !app_assoc.
Qed.

Lemma started_before (tr l1 l2 : list event) (ss' : session) (d : op) :
  execution net layout alpha shape lr polyak b ss (tr, ss') → tr = l1 ++ l2 → Start d ∈ l1 →
  ∀ c, c ∈ control_inputs d → Finish c ∈ l1.
Proof.
  intros Hex -> Hin. destruct (execution_invariant _ _ Hex) as (_ & Hs & _).
  apply list_elem_of_split in Hin as (a & c & ->).
  intros c0 Hc0. apply elem_of_app. left.
  eapply (Hs a (c ++ l2)); [|done]. by rewrite <- app_assoc.
Qed.
End Order.


(** Liveness: running the operations of [step_ops] one after the other, in
    the order the list names them, is an execution, and it is complete. *)
Lemma sequential_execution (net : networks) (layout : list (subnet * nat))
    (alpha : alpha_cfg) (shape : list nat) (lr polyak : R) (b : Batch)
    (ss : session) :
  execution net layout alpha shape lr polyak b ss
    (sequential_trace (step_ops alpha),
     foldl (λ acc o, apply_op net layout alpha shape lr polyak b o acc) ss
           (step_ops alpha)) ∧
  complete alpha (sequential_trace (step_ops alpha)).
Proof.
  split.
  - unfold execution.
    assert (Hin : ∀ o, o ∈ [Op_train_pi; Op_train_value; Op_target_update] →
                       o ∈ step_ops alpha).
    { intros o Ho. destruct alpha; simpl; [done|].
      change (o ∈ [Op_train_pi; Op_train_value; Op_target_update]
                  ++ [Op_train_alpha]).
      apply elem_of_app. by left. }
    eapply rtc_l.
    { apply (run_start _ _ _ _ _ _ _ [] ss Op_train_pi);
        [apply Hin; elem_of_list | not_elem_of_list
        | simpl; intros d Hd; by apply elem_of_nil in Hd]. }
    eapply rtc_l.
    { apply (run_finish _ _ _ _ _ _ _ _ ss Op_train_pi);
        [simpl; elem_of_list | simpl; not_elem_of_list]. }
    eapply rtc_l.
    { apply (run_start _ _ _ _ _ _ _ _ _ Op_train_value);
        [apply Hin; elem_of_list | simpl; not_elem_of_list |].
      simpl. intros d ->%list_elem_of_singleton. elem_of_list. }
    eapply rtc_l.
    { apply (run_finish _ _ _ _ _ _ _ _ _ Op_train_value);
        [simpl; elem_of_list | simpl; not_elem_of_list]. }
    eapply rtc_l.
    { apply (run_start _ _ _ _ _ _ _ _ _ Op_target_update);
        [apply Hin; elem_of_list | simpl; not_elem_of_list |].
      simpl. intros d ->%list_elem_of_singleton. elem_of_list. }
    eapply rtc_l.
    { apply (run_finish _ _ _ _ _ _ _ _ _ Op_target_update);
        [simpl; elem_of_list | simpl; not_elem_of_list]. }
    destruct alpha as [a|]; simpl; [apply rtc_refl|].
    eapply rtc_l.
    { apply (run_start _ _ _ _ _ _ _ _ _ Op_train_alpha);
        [simpl; elem_of_list | simpl; not_elem_of_list
        | simpl; intros d Hd; by apply elem_of_nil in Hd]. }
    eapply rtc_l.
    { apply (run_finish _ _ _ _ _ _ _ _ _ Op_train_alpha);
        [simpl; elem_of_list | simpl; not_elem_of_list]. }
    apply rtc_refl.
  - intros o Ho. destruct alpha; simpl in *;
      repeat (apply elem_of_cons in Ho as [->|Ho]; [elem_of_list|]);
      by apply elem_of_nil in Ho.
Qed.

Lemma omap_finish_split (f : event → option op) (tr : list event)
    (l1' l2' : list op) (y : op) :
  (∀ e o, f e = Some o → e = Finish o) →
  omap f tr = l1' ++ y :: l2' →
  ∃ l1 l2, tr = l1 ++ Finish y :: l2 ∧ omap f l1 = l1' ∧ omap f l2 = l2'.
Proof.
  intros Hf. revert l1'. induction tr as [|e tr IH]; intros l1' Heq.
  - by destruct l1'.
  - cbn [omap list_omap] in Heq. destruct (f e) as [o|] eqn:Hfe.
    + apply Hf in Hfe as He. subst e. destruct l1' as [|z l1'].
      * injection Heq as -> <-. exists [], tr. done.
      * injection Heq as -> Heq. destruct (IH _ Heq) as (l1 & l2 & -> & H1 & H2).
        exists (Finish z :: l1), l2. split; [done|]. split; [|done].
        cbn [omap list_omap]. rewrite Hfe. by rewrite <- H1.
    + destruct (IH _ Heq) as (l1 & l2 & -> & H1 & H2).
      exists (e :: l1), l2. split; [done|]. split; [|done].
      cbn [omap list_omap]. by rewrite Hfe.
Qed.

Lemma omap_finish_NoDup (f : event → option op) (tr : list event) :
  (∀ e o, f e = Some o → e = Finish o) →
  NoDup tr → NoDup (omap f tr).
Proof.
  intros Hf. induction 1 as [|e tr He Hnd IH]; [constructor|].
  cbn [omap list_omap]. destruct (f e) as [o|] eqn:Hfe; [|done].
  constructor; [|done].
  intros (x & Hx & Hfx)%list_elem_of_omap.
  apply Hf in Hfe. apply Hf in Hfx. by subst.
Qed.

Lemma finish_of_update_inv (e : event) (o : op) :
  finish_of_update e = Some o → e = Finish o.
Proof.
  destruct e as [o'|o']; simpl; [done|].
  destruct (decide (o' = Op_train_alpha)); [done|]. by intros [= ->].
Qed.

Lemma elem_of_finished_updates (tr : list event) (o : op) :
  o ∈ finished_updates tr ↔ Finish o ∈ tr ∧ o ≠ Op_train_alpha.
Proof.
  unfold finished_updates. rewrite list_elem_of_omap. split.
  - intros (e & He & Hfe). apply finish_of_update_inv in Hfe as Heq. subst e.
    split; [done|]. simpl in Hfe.
    destruct (decide (o = Op_train_alpha)); done.
  - intros [Hin Hne]. exists (Finish o). split; [done|]. simpl.
    by rewrite decide_False.
Qed.

Section Effect.
Context (net : networks) (layout : list (subnet * nat)) (alpha : alpha_cfg).
Context (shape : list nat) (lr polyak : R) (b : Batch) (ss : session).

(** The session after an execution is the initial one changed by the
    finished operations, in the order in which they finished; only fetched
    operations run. *)
Lemma execution_effect (tr : list event) (ss' : session) :
  execution net layout alpha shape lr polyak b ss (tr, ss') →
  ss' = foldl (λ acc o, apply_op net layout alpha shape lr polyak b o acc) ss
              (finished_ops tr) ∧
  (∀ o, Start o ∈ tr → o ∈ step_ops alpha).
Proof.
  unfold execution. intros Hrtc.
  change tr with (tr, ss').1. change ss' with (tr, ss').2 at 1.
  revert Hrtc. generalize (tr, ss'). clear tr ss'.
  apply (rtc_ind_r (λ st : list event * session,
    st.2 = foldl (λ acc o, apply_op net layout alpha shape lr polyak b o acc)
                 ss (finished_ops st.1) ∧
    (∀ o, Start o ∈ st.1 → o ∈ step_ops alpha))).
  - simpl. split; [done|]. intros o Ho. by apply elem_of_nil in Ho.
  - intros st1 st2 _ Hstep (Heff & Hfetch).
    inversion Hstep as [tr0 ss0 o Hf Hnew Hdeps|tr0 ss0 o Hstarted Hnew];
      subst; simpl in *.
    + split.
      * unfold finished_ops. rewrite omap_app. simpl. by rewrite app_nil_r.
      * intros o' [Ho'|Ho']%elem_of_app; [by apply Hfetch|].
        apply list_elem_of_singleton in Ho'. by injection Ho' as ->.
    + split.
      * unfold finished_ops. rewrite omap_app, foldl_app. simpl.
        by rewrite Heff.
      * intros o' [Ho'|Ho']%elem_of_app; [by apply Hfetch|].
        apply list_elem_of_singleton in Ho'. discriminate Ho'.
Qed.
End Effect.

Lemma finished_ops_updates (tr : list event) :
  Finish Op_train_alpha ∉ tr → finished_ops tr = finished_updates tr.
Proof.
  unfold finished_ops, finished_updates.
  induction tr as [|e tr IH]; intros Hno; [done|].
  apply not_elem_of_cons in Hno as [Hne Hno].
  cbn [omap list_omap]. rewrite IH by done.
  destruct e as [o|o]; simpl; [done|].
  rewrite decide_False; [done|]. by intros ->.
Qed.

Lemma updates_in_order (net : networks) (layout : list (subnet * nat))
    (alpha : alpha_cfg) (shape : list nat) (lr polyak : R) (b : Batch)
    (ss : session) (tr : list event) (ss' : session) :
  execution net layout alpha shape lr polyak b ss (tr, ss') →
  complete alpha tr →
  finished_updates tr = [Op_train_pi; Op_train_value; Op_target_update].
Proof.
  intros Hex Hc.
  destruct (execution_invariant _ _ _ _ _ _ _ _ _ _ Hex) as (Hnd & Hs & Hf).
  assert (Hfetched : ∀ o, o ∈ [Op_train_pi; Op_train_value; Op_target_update] →
                          Finish o ∈ tr).
  { intros o Ho. apply Hc. destruct alpha; simpl; [done|].
    change (o ∈ [Op_train_pi; Op_train_value; Op_target_update]
                ++ [Op_train_alpha]).
    apply elem_of_app. by left. }
  assert (Hlen : length (finished_updates tr) ≤ 3).
  { change 3 with (length [Op_train_pi; Op_train_value; Op_target_update]).
    apply submseteq_length, NoDup_submseteq.
    - apply omap_finish_NoDup; [apply finish_of_update_inv | done].
    - intros o [_ Hne]%elem_of_finished_updates.
      destruct o; [elem_of_list..|done]. }
  assert (Hv : Op_train_value ∈ finished_updates tr).
  { apply elem_of_finished_updates. split; [|done]. apply Hfetched. elem_of_list. }
  apply list_elem_of_split in Hv as (l1' & l2' & Hl).
  destruct (omap_finish_split _ _ _ _ _ finish_of_update_inv Hl)
    as (l1 & l2 & Htr & H1 & H2).
  assert (Hsv : Start Op_train_value ∈ l1) by (by eapply Hf).
  assert (Hpi : Op_train_pi ∈ l1').
  { rewrite <- H1. apply elem_of_finished_updates. split; [|done].
    eapply (started_before _ _ _ _ _ _ _ _ _ _ _ _ _ Hex Htr Hsv). simpl. left. }
  assert (Htg : Op_target_update ∈ l2').
  { rewrite <- H2. apply elem_of_finished_updates. split; [|done].
    assert (Hin : Finish Op_target_update ∈ tr) by (apply Hfetched; elem_of_list).
    rewrite Htr in Hin.
    apply elem_of_app in Hin as [Hin|Hin].
    - exfalso.
      destruct (finished_before _ _ _ _ _ _ _ _ _ _ _ _ _ Hex Htr Hin)
        as [_ Hci].
      rewrite Htr in Hnd. apply (NoDup_prefix_notin _ _ _ Hnd).
      apply Hci. simpl. left.
    - apply elem_of_cons in Hin as [Hin|Hin]; [discriminate Hin | done]. }
  apply list_elem_of_split in Hpi as (a & c & ->).
  apply list_elem_of_split in Htg as (p & q & ->).
  rewrite Hl in Hlen |- *.
  rewrite !length_app in Hlen. simpl in Hlen. rewrite !length_app in Hlen.
  simpl in Hlen.
  destruct a, c, p, q; simpl in Hlen; try lia. done.
Qed.

(** C1. In every execution of one [sess.run(step_ops)], whatever the
    scheduler does with operations that no control dependency orders: each
    operation starts and finishes at most once; the value step starts only
    after the policy step has finished; the Polyak update starts only after
    the value step (hence the policy step) has finished; no event of the
    value step or of the Polyak update precedes the end of the policy step,
    and none of the Polyak update precedes the end of the value step.  In a
    complete execution the three updates finish in the order policy, value,
    target; with a fixed alpha the resulting session is that of the three
    steps applied one after the other.  Running them one after the other is
    itself a complete execution. *)
Theorem update_order (net : networks) (layout : list (subnet * nat))
    (alpha : alpha_cfg) (shape : list nat) (lr polyak : R) (b : Batch)
    (ss : session) (tr : list event) (ss' : session) :
  execution net layout alpha shape lr polyak b ss (tr, ss') →
  NoDup tr ∧
  (∀ l1 l2, tr = l1 ++ Start Op_train_value :: l2 → Finish Op_train_pi ∈ l1) ∧
  (∀ l1 l2, tr = l1 ++ Start Op_target_update :: l2 →
     Finish Op_train_value ∈ l1 ∧ Finish Op_train_pi ∈ l1) ∧
  (∀ l1 l2, tr = l1 ++ Finish Op_train_pi :: l2 →
     ∀ e, e ∈ l1 →
       e ≠ Start Op_train_value ∧ e ≠ Finish Op_train_value ∧
       e ≠ Start Op_target_update ∧ e ≠ Finish Op_target_update) ∧
  (∀ l1 l2, tr = l1 ++ Finish Op_train_value :: l2 →
     ∀ e, e ∈ l1 → e ≠ Start Op_target_update ∧ e ≠ Finish Op_target_update) ∧
  (complete alpha tr →
     finished_updates tr = [Op_train_pi; Op_train_value; Op_target_update] ∧
     (∀ a, alpha = AlphaFixed a →
        ss' = target_update_op layout alpha polyak
                (train_value_op net layout alpha lr b
                   (train_pi_op net layout alpha lr b ss)))) ∧
  (∃ tr1 ss1, execution net layout alpha shape lr polyak b ss (tr1, ss1) ∧
              complete alpha tr1).
Proof.
  intros Hex.
  destruct (execution_invariant _ _ _ _ _ _ _ _ _ _ Hex) as (Hnd & Hs & Hf).
  assert (Hsb := started_before net layout alpha shape lr polyak b ss tr).
  assert (Hfb := finished_before net layout alpha shape lr polyak b ss tr).
  (* events that cannot precede the end of an operation [c] *)
  assert (Hstart_after : ∀ l1 l2 c d, tr = l1 ++ Finish c :: l2 →
            c ∈ control_inputs d → Start d ∉ l1).
  { intros l1 l2 c d Htr Hc Hin. rewrite Htr in Hnd.
    apply (NoDup_prefix_notin _ _ _ Hnd).
    by apply (Hsb l1 (Finish c :: l2) ss' d Hex Htr Hin). }
  assert (Hfinish_after : ∀ l1 l2 c d, tr = l1 ++ Finish c :: l2 →
            c ∈ control_inputs d → Finish d ∉ l1).
  { intros l1 l2 c d Htr Hc Hin. rewrite Htr in Hnd.
    apply (NoDup_prefix_notin _ _ _ Hnd).
    by apply (Hfb l1 (Finish c :: l2) ss' d Hex Htr Hin). }
  split; [done|]. split; [|split; [|split; [|split; [|split]]]].
  - intros l1 l2 Htr. eapply Hs; [done|]. simpl. left.
  - intros l1 l2 Htr.
    assert (Hv : Finish Op_train_value ∈ l1) by (eapply Hs; [done|]; simpl; left).
    split; [done|].
    destruct (Hfb l1 (Start Op_target_update :: l2) ss' _ Hex Htr Hv) as [Hsv _].
    apply (Hsb l1 (Start Op_target_update :: l2) ss' _ Hex Htr Hsv). simpl. left.
  - intros l1 l2 Htr e He.
    assert (H1 : Start Op_train_value ∉ l1)
      by (eapply Hstart_after; [done|]; simpl; left).
    assert (H2 : Finish Op_train_value ∉ l1)
      by (eapply Hfinish_after; [done|]; simpl; left).
    assert (H3 : Start Op_target_update ∉ l1).
    { intros Hin. apply H2.
      apply (Hsb l1 (Finish Op_train_pi :: l2) ss' _ Hex Htr Hin). simpl. left. }
    assert (H4 : Finish Op_target_update ∉ l1).
    { intros Hin. apply H3.
      by destruct (Hfb l1 (Finish Op_train_pi :: l2) ss' _ Hex Htr Hin). }
    repeat split; intros ->; done.
  - intros l1 l2 Htr e He.
    assert (H3 : Start Op_target_update ∉ l1)
      by (eapply Hstart_after; [done|]; simpl; left).
    assert (H4 : Finish Op_target_update ∉ l1)
      by (eapply Hfinish_after; [done|]; simpl; left).
    split; intros ->; done.
  - intros Hc.
    pose proof (updates_in_order _ _ _ _ _ _ _ _ _ _ Hex Hc) as Hord.
    split; [done|]. intros a ->.
    destruct (execution_effect _ _ _ _ _ _ _ _ _ _ Hex) as [Heff Hfetch].
    rewrite Heff, finished_ops_updates, Hord; [done|].
    intros Hin. apply list_elem_of_split in Hin as (l1 & l2 & Htr).
    assert (Hst : Start Op_train_alpha ∈ tr).
    { rewrite Htr. apply elem_of_app. left. by eapply Hf. }
    apply Hfetch in Hst. simpl in Hst.
    repeat (apply elem_of_cons in Hst as [Hst|Hst]; [discriminate Hst|]).
    by apply elem_of_nil in Hst.
  - eexists _, _. apply sequential_execution.
Qed.

Lemma update_order_witness :
  execution net0 layout3 (AlphaFixed 0.2%R) [1] 0.0005%R 0.995%R batch0 sess0
    (sequential_trace (step_ops (AlphaFixed 0.2%R)),
     foldl (λ acc o, apply_op net0 layout3 (AlphaFixed 0.2%R) [1] 0.0005%R
                       0.995%R batch0 o acc) sess0
           (step_ops (AlphaFixed 0.2%R))) ∧
  ∀ l1 l2,
    sequential_trace (step_ops (AlphaFixed 0.2%R))
      = l1 ++ Start Op_train_value :: l2 →
    Finish Op_train_pi ∈ l1.
Proof.
  pose proof (proj1 (sequential_execution net0 layout3 (AlphaFixed 0.2%R) [1]
                       0.0005%R 0.995%R batch0 sess0)) as Hex.
  split; [exact Hex|].
  exact (proj1 (proj2 (update_order _ _ _ _ _ _ _ _ _ _ Hex))).
Defined.

(** ** TrainingLoop *)

Lemma action_source_at_spec (start_steps t : nat) :
  (t ≤ start_steps → action_source_at start_steps t = FromActionSpace) ∧
  (start_steps < t → action_source_at start_steps t = FromPolicy).
Proof.
  unfold action_source_at. split; intros Ht.
  - by rewrite decide_False by lia.
  - by rewrite decide_True by lia.
Qed.

Lemma random_action_steps_count (cfg : config) (n : nat) :
  random_action_steps cfg n = Nat.min n (start_steps cfg + 1).
Proof.
  unfold random_action_steps, action_sources.
  induction n as [|n IH]; [done|].
  rewrite seq_S, map_app, filter_app, length_app, IH. cbn [map Nat.add].
  destruct (action_source_at_spec (start_steps cfg) n) as [Hr Hp].
  destruct (decide (n ≤ start_steps cfg)) as [Hle|Hgt].
  - rewrite Hr by done. rewrite filter_cons_True by done. rewrite filter_nil. cbn [length]. lia.
  - rewrite Hp by lia. rewrite filter_cons_False by done. rewrite filter_nil. cbn [length]. lia.
Qed.

(** C7 fails on the code (off by one): the test is [t > start_steps] with
    [t] counted from 0, so iterations [0 .. start_steps] take the action from
    the action space: [start_steps + 1] random-action steps when the run is
    long enough, not [start_steps].  With [start_steps = 0] the very first
    step is still random. *)
Theorem random_steps_off_by_one {E : Type} (envi : environment E) (net : networks)
    (cfg : config) (st : loop_state E) :
  action_source_at (start_steps cfg) (start_steps cfg) = FromActionSpace ∧
  (select_action envi net cfg (start_steps cfg) st).1
    = (action_space_sample envi (env st)).1 ∧
  (∀ n, random_action_steps cfg n = Nat.min n (start_steps cfg + 1)) ∧
  random_action_steps cfg (start_steps cfg + 1) = start_steps cfg + 1 ∧
  action_source_at 0 0 = FromActionSpace.
Proof.
  destruct (action_source_at_spec (start_steps cfg) (start_steps cfg)) as [Hr _].
  split; [by apply Hr|]. split.
  - unfold select_action. by rewrite Hr.
  - split; [apply random_action_steps_count|]. split; [|done].
    rewrite random_action_steps_count. lia.
Qed.

Lemma adam_minimize_t (lr : R) (grads : variable → list R)
    (var_list : list variable) (opt : adam_state) (s : params) :
  adam_t (adam_minimize lr grads var_list opt s).1 = S (adam_t opt).
Proof.
  unfold adam_minimize. cbn [fst adam_t]. f_equal.
  generalize (adam_lr_t lr (S (adam_t opt))). intros lr_t.
  revert opt s. induction var_list as [|x l IH]; intros opt s; [done|].
  cbn [foldl]. by rewrite IH.
Qed.

Section LoopFacts.
Context {E : Type} (envi : environment E) (net : networks).
Context (layout : list (subnet * nat)) (cfg : config).

(** One [sess.run(step_ops)] is one step of the policy optimizer and one
    step of the value optimizer. *)
Lemma run_step_ops_steps (b : Batch) (ss : session) :
  adam_t (pi_optimizer (run_step_ops envi net layout cfg b ss).2)
    = S (adam_t (pi_optimizer ss)) ∧
  adam_t (value_optimizer (run_step_ops envi net layout cfg b ss).2)
    = S (adam_t (value_optimizer ss)).
Proof.
  unfold run_step_ops, sess_run_step_ops. cbn [snd pi_optimizer value_optimizer].
  destruct (alpha cfg); cbn [step_ops foldl apply_op];
    unfold train_alpha_op, target_update_op, train_value_op, train_pi_op;
    cbn [pi_optimizer value_optimizer vars rand_calls];
    by rewrite !adam_minimize_t.
Qed.

Lemma select_action_frame (t : nat) (st : loop_state E) :
  let st1 := (select_action envi net cfg t st).2 in
  replay_buffer st1 = replay_buffer st ∧ np_random st1 = np_random st ∧
  o st1 = o st ∧ ep_ret st1 = ep_ret st ∧ ep_len st1 = ep_len st ∧
  logger st1 = logger st ∧ test_env st1 = test_env st ∧
  pi_optimizer (sess st1) = pi_optimizer (sess st) ∧
  value_optimizer (sess st1) = value_optimizer (sess st) ∧
  vars (sess st1) = vars (sess st).
Proof.
  unfold select_action. by destruct (action_source_at (start_steps cfg) t).
Qed.

(** [n] update cycles: [n] batches drawn, [n] runs of [step_ops], [n]
    records sent to the logger; nothing else changes. *)
Lemma train_burst_spec (n : nat) (st : loop_state E) :
  buffer_wf (replay_buffer st) → 0 < size (replay_buffer st) →
  ∃ st' outs,
    train_burst envi net layout cfg n st = Ok st' ∧
    length outs = n ∧
    logger st' = logger st ++ map LogStep outs ∧
    adam_t (pi_optimizer (sess st')) = adam_t (pi_optimizer (sess st)) + n ∧
    adam_t (value_optimizer (sess st'))
      = adam_t (value_optimizer (sess st)) + n ∧
    consumed (np_random st') = consumed (np_random st) + n * batch_size cfg ∧
    replay_buffer st' = replay_buffer st ∧ env st' = env st ∧
    test_env st' = test_env st ∧ o st' = o st ∧
    ep_ret st' = ep_ret st ∧ ep_len st' = ep_len st.
Proof.
  revert st. induction n as [|n IH]; intros st Hwf Hsz.
  - exists st, []. simpl. rewrite app_nil_r. repeat split; lia.
  - cbn [train_burst].
    destruct (sample_batch_ok (replay_buffer st) (batch_size cfg)
                (np_random st) Hwf Hsz) as (batch & -> & _).
    cbn [mbind result_bind].
    destruct (run_step_ops_steps batch (sess st)) as [Hpi Hv].
    match goal with |- ∃ _ _, train_burst _ _ _ _ _ ?s = _ ∧ _ =>
      destruct (IH s) as (st' & outs & Hrun & Hlen & Hlog & Hp & Hq & Hc &
                          Hb & He & Hte & Ho & Hr & Hl); [done | done |]
    end.
    cbn [replay_buffer np_random sess logger env test_env o ep_ret ep_len
         consumed] in *.
    exists st', ((run_step_ops envi net layout cfg batch (sess st)).1 :: outs).
    split; [exact Hrun|].
    rewrite Hlog, Hp, Hq, Hc, Hpi, Hv, <- app_assoc. simpl.
    repeat split; try done; lia.
Qed.
End LoopFacts.

(** C6. One iteration of the main loop, from a state whose buffer is well
    formed.  If the environment reports [d] or the episode length (counting
    this step) equals [max_ep_len_train], the iteration performs exactly
    [ep_len] update cycles, [ep_len] being the number of steps of the
    episode just finished: [ep_len] batches are drawn from the buffer
    ([ep_len * batch_size] draws of the generator), the policy optimizer and
    the value optimizer each take [ep_len] steps, [ep_len] step records reach
    the logger, followed by the episode record; then the environment is reset
    and the episode counters are cleared.  Otherwise no update cycle runs and
    the environment is not reset. *)
Theorem episode_end_training_burst {E : Type} (envi : environment E)
    (net : networks) (layout : list (subnet * nat)) (cfg : config) (t : nat)
    (st st1 : loop_state E) (a o2 : list R) (r : R) (d : bool) (e' : E) :
  buffer_wf (replay_buffer st) →
  select_action envi net cfg t st = (a, st1) →
  env_step envi a (env st1) = (o2, r, d, e') →
  (d = true ∨ ep_len st + 1 = max_ep_len_train cfg →
   ∃ st' outs,
     collect_and_train envi net layout cfg t st = Ok st' ∧
     length outs = ep_len st + 1 ∧
     logger st' = logger st ++ map LogStep outs
                    ++ [LogEpisode (ep_ret st + r)%R (ep_len st + 1)] ∧
     adam_t (pi_optimizer (sess st'))
       = adam_t (pi_optimizer (sess st)) + (ep_len st + 1) ∧
     adam_t (value_optimizer (sess st'))
       = adam_t (value_optimizer (sess st)) + (ep_len st + 1) ∧
     consumed (np_random st')
       = consumed (np_random st) + (ep_len st + 1) * batch_size cfg ∧
     store (replay_buffer st) (mk_transition (o st) a r o2 d)
       = Ok (replay_buffer st') ∧
     env st' = (env_reset envi e').2 ∧ o st' = (env_reset envi e').1 ∧
     ep_len st' = 0 ∧ ep_ret st' = 0%R) ∧
  (d = false → ep_len st + 1 ≠ max_ep_len_train cfg →
   ∃ st',
     collect_and_train envi net layout cfg t st = Ok st' ∧
     logger st' = logger st ∧ sess st' = sess st1 ∧
     np_random st' = np_random st ∧
     env st' = e' ∧ o st' = o2 ∧
     ep_len st' = ep_len st + 1 ∧ ep_ret st' = (ep_ret st + r)%R).
Proof.
  intros Hwf Hsel Hstep.
  pose proof (select_action_frame envi net cfg t st) as Hfr.
  rewrite Hsel in Hfr. cbn [snd] in Hfr.
  destruct Hfr as (Hb & Hg & Ho & Hret & Hlen & Hlog & _ & Hpi & Hv & _).
  assert (Hst := store_wf (replay_buffer st) (mk_transition (o st) a r o2 d) Hwf).
  unfold collect_and_train. rewrite Hsel, Hstep, Hb, Ho, Hst.
  cbn [mbind result_bind].
  split.
  - intros Hend.
    assert (Hcond : d || bool_decide (ep_len st1 + 1 = max_ep_len_train cfg) = true).
    { destruct Hend as [-> | Hmax]; [done|].
      rewrite Hlen, bool_decide_true by done. by rewrite orb_true_r. }
    rewrite Hcond. unfold end_of_episode.
    match goal with |- ∃ _ _, (mbind _ (train_burst _ _ _ _ _ ?s)) = _ ∧ _ =>
      destruct (train_burst_spec envi net layout cfg (ep_len s) s)
        as (st2 & outs & Hrun & Hl & Hlg & Hp & Hq & Hc & Hbuf & He & _ & _ &
            Hr2 & Hl2)
    end.
    { cbn [replay_buffer]. eapply store_preserves_wf; eauto. }
    { cbn [replay_buffer size]. destruct Hwf. lia. }
    rewrite Hrun. cbn [mbind result_bind].
    cbn [replay_buffer np_random sess logger env o ep_ret ep_len] in *.
    eexists _, outs. split; [reflexivity|].
    cbn [replay_buffer np_random sess logger env o ep_ret ep_len].
    rewrite Hlg, Hp, Hq, Hc, Hbuf, He, Hr2, Hl2, Hlog, Hpi, Hv, Hg, Hret, Hlen.
    rewrite <- app_assoc. rewrite Hlen in Hl.
    repeat split; done.
  - intros -> Hne.
    rewrite bool_decide_false by (by rewrite Hlen). cbn [orb].
    eexists. split; [reflexivity|].
    cbn [replay_buffer np_random sess logger env o ep_ret ep_len].
    by rewrite Hlog, Hg, Hret, Hlen.
Qed.

Lemma episode_end_training_burst_witness :
  buffer_wf (replay_buffer st_ex) ∧
  select_action env_ex net0 cfg_ex 3 st_ex
    = (net_pi net0 (vars sess0) 0 [1%R], 
       mk_loop_state 1 0 (get_action net0 [1%R] false sess0).2 buf_one gen0
                     [1%R] 1%R 1 []) ∧
  ∃ st' (outs : list (list (list R))),
    collect_and_train env_ex net0 layout3 cfg_ex 3 st_ex = Ok st' ∧
    length outs = 2 ∧
    adam_t (pi_optimizer (sess st')) = 2 ∧ ep_len st' = 0.
Proof.
  assert (Hsel : select_action env_ex net0 cfg_ex 3 st_ex
    = (net_pi net0 (vars sess0) 0 [1%R], 
       mk_loop_state 1 0 (get_action net0 [1%R] false sess0).2 buf_one gen0
                     [1%R] 1%R 1 [])) by reflexivity.
  split; [exact buf_one_wf|]. split; [exact Hsel|].
  destruct (proj1 (episode_end_training_burst env_ex net0 layout3 cfg_ex 3
                     st_ex _ _ [1%R] 1%R true 2 buf_one_wf Hsel eq_refl)
                  (or_introl eq_refl))
    as (st' & outs & Hrun & Hlen & _ & Hpi & _ & _ & _ & _ & _ & Hl & _).
  exists st', outs. repeat split; assumption.
Defined.

(** ** TemperatureController *)










(** ** TemperatureController in float32 *)


(** At the default [lr = 5e-4] the float32 step on a batch whose mean of
    [logp_pi + target_entropy] is [1.0] moves [log_alpha] up by 42 units in
    the last place, about [5.0068e-06]. *)
Lemma log_alpha_first_step_f32_default :
  log_alpha_first_step_f32 alpha_lr_default logp_two [1]
  = S754_finite false 8388650 (-23).
Proof. vm_compute. reflexivity. Qed.




(** * Further properties *)

(** ** Environment wrappers *)

Section WrapperFacts.
Context {E : Type} (envi : environment E).

Lemma Wrapper_loop_returns (n : nat) (action : list R) (r : R)
    (bound : option (list R * bool)) (e : E) :
  0 < n ∨ is_Some bound →
  ∃ res, Wrapper_step_loop envi n action r bound e = Return res.
Proof.
  revert r bound e. induction n as [|n IH]; intros r bound e Hb.
  - destruct Hb as [Hn | [[ob d] ->]]; [lia|]. simpl. eauto.
  - cbn [Wrapper_step_loop].
    destruct (env_step envi action e) as [[[ob rw] d] e'].
    destruct d; [eauto|]. apply IH. right. eauto.
Qed.

(** No step among the [n] reports [done]: the loop runs to its end. *)
Lemma Wrapper_loop_no_done (n : nat) (action : list R) (r : R)
    (bound : option (list R * bool)) (e : E) :
  Forall (λ out, out.2 = false) (repeated_steps envi n action e).1 →
  Wrapper_step_loop envi n action r bound e
  = match last (repeated_steps envi n action e).1, bound with
    | Some out, _ =>
        Return ((out.1.1, add_rewards r (repeated_steps envi n action e).1,
                 false), (repeated_steps envi n action e).2)
    | None, Some (ob, d) => Return ((ob, r, d), e)
    | None, None => UnboundLocalError
    end.
Proof.
  revert r bound e. induction n as [|n IH]; intros r bound e Hnd.
  - simpl. by destruct bound as [[ob d]|].
  - cbn [Wrapper_step_loop repeated_steps] in *.
    destruct (env_step envi action e) as [[[ob rw] d] e'].
    cbn [fst snd] in *.
    apply Forall_cons in Hnd as [Hd Hnd]. simpl in Hd. subst d.
    rewrite (IH _ _ _ Hnd). unfold add_rewards. cbn [foldl fst snd].
    destruct n as [|m]; [done|].
    cbn [repeated_steps].
    destruct (env_step envi action e') as [out1 e1].
    destruct (repeated_steps envi m action e1) as [outs en]. cbn [fst snd].
    change (last ((ob, rw, false) :: out1 :: outs)) with (last (out1 :: outs)).
    destruct (last (out1 :: outs)) as [out|] eqn:Hlast; [done|].
    by apply last_None in Hlast.
Qed.

Lemma repeated_steps_S (n : nat) (action : list R) (e : E) :
  repeated_steps envi (S n) action e
  = ((env_step envi action e).1
       :: (repeated_steps envi n action (env_step envi action e).2).1,
     (repeated_steps envi n action (env_step envi action e).2).2).
Proof. cbn [repeated_steps]. by destruct (env_step envi action e). Qed.

(** The first [done] comes at step [length pre + 1]: the loop stops there. *)
Lemma Wrapper_loop_done (n : nat) (action : list R) (r : R)
    (bound : option (list R * bool)) (e : E)
    (pre : list (list R * R * bool)) (ob : list R) (rw : R) (e' : E) :
  repeated_steps envi (S (length pre)) action e = (pre ++ [(ob, rw, true)], e') →
  Forall (λ out, out.2 = false) pre →
  length pre < n →
  Wrapper_step_loop envi n action r bound e = Return ((ob, 0%R, true), e').
Proof.
  revert r bound e pre. induction n as [|n IH]; intros r bound e pre Hrs Hpre Hlt;
    [lia|].
  cbn [Wrapper_step_loop]. rewrite repeated_steps_S in Hrs.
  destruct (env_step envi action e) as [[[ob1 rw1] d1] e1]. cbn [fst snd] in Hrs.
  destruct pre as [|p pre].
  - cbn [length repeated_steps app fst snd] in Hrs.
    injection Hrs as -> -> -> ->. done.
  - cbn [length app] in Hrs, Hlt.
    injection Hrs as <- Hrest He.
    apply Forall_cons in Hpre as [Hd Hpre]. simpl in Hd. subst d1.
    apply (IH _ _ _ pre); [|done|lia].
    apply injective_projections; [exact Hrest | exact He].
Qed.
End WrapperFacts.

(** X1. [Wrapper.step] raises UnboundLocalError exactly when
    [action_repeat = 0] (the loop body never runs and [obs_] is read
    unbound); with [action_repeat >= 1] it always returns. *)
Theorem Wrapper_step_unbound_iff {E : Type} (envi : environment E)
    (action_repeat : nat) (action : list R) (e : E) :
  (Wrapper_step envi action_repeat action e = UnboundLocalError
   ↔ action_repeat = 0) ∧
  (0 < action_repeat → ∃ res, Wrapper_step envi action_repeat action e = Return res).
Proof.
  assert (Hret : 0 < action_repeat →
                 ∃ res, Wrapper_step envi action_repeat action e = Return res).
  { intros Hn. apply Wrapper_loop_returns. by left. }
  split; [|done]. split.
  - intros Hu. destruct action_repeat as [|n]; [done|].
    destruct Hret as [res Hres]; [lia|]. rewrite Hres in Hu. discriminate Hu.
  - by intros ->.
Qed.

(** X2. [Wrapper.step] stops at the first inner step that reports [done]:
    the wrapped environment is stepped no further, and the reward returned
    is [0.0], whatever the inner steps had accumulated. *)
Theorem Wrapper_step_stops_at_first_done {E : Type} (envi : environment E)
    (action_repeat : nat) (action : list R) (e : E)
    (pre : list (list R * R * bool)) (ob : list R) (rw : R) (e' : E) :
  repeated_steps envi (S (length pre)) action e = (pre ++ [(ob, rw, true)], e') →
  Forall (λ out, out.2 = false) pre →
  length pre < action_repeat →
  Wrapper_step envi action_repeat action e = Return ((ob, 0%R, true), e').
Proof. intros Hrs Hpre Hlt. unfold Wrapper_step. by eapply Wrapper_loop_done. Qed.

Lemma Wrapper_step_stops_at_first_done_witness :
  repeated_steps env_ex (S (length [([1%R], 1%R, false)])) [0%R] 0
    = ([([1%R], 1%R, false)] ++ [([1%R], 1%R, true)], 2) ∧
  Forall (λ out : list R * R * bool, out.2 = false) [([1%R], 1%R, false)] ∧
  length [([1%R], 1%R, false)] < 3 ∧
  Wrapper_step env_ex 3 [0%R] 0 = Return (([1%R], 0%R, true), 2).
Proof.
  assert (H1 : repeated_steps env_ex (S (length [([1%R], 1%R, false)])) [0%R] 0
               = ([([1%R], 1%R, false)] ++ [([1%R], 1%R, true)], 2))
    by reflexivity.
  assert (H2 : Forall (λ out : list R * R * bool, out.2 = false)
                      [([1%R], 1%R, false)])
    by (constructor; [reflexivity | constructor]).
  assert (H3 : length [([1%R], 1%R, false)] < 3) by (simpl; lia).
  split; [exact H1|]. split; [exact H2|]. split; [exact H3|].
  exact (Wrapper_step_stops_at_first_done env_ex 3 [0%R] 0 _ _ _ _ H1 H2 H3).
Defined.

(** X3. When none of the [action_repeat >= 1] inner steps reports [done],
    [Wrapper.step] takes exactly [action_repeat] steps of the wrapped
    environment and returns the last observation, the sum of the inner
    rewards and [done = False]. *)
Theorem Wrapper_step_sums_rewards {E : Type} (envi : environment E)
    (action_repeat : nat) (action : list R) (e : E) :
  0 < action_repeat →
  Forall (λ out, out.2 = false) (repeated_steps envi action_repeat action e).1 →
  ∃ out,
    last (repeated_steps envi action_repeat action e).1 = Some out ∧
    length (repeated_steps envi action_repeat action e).1 = action_repeat ∧
    Wrapper_step envi action_repeat action e
    = Return ((out.1.1,
               add_rewards 0%R (repeated_steps envi action_repeat action e).1,
               false),
              (repeated_steps envi action_repeat action e).2).
Proof.
  intros Hn Hnd. unfold Wrapper_step.
  rewrite (Wrapper_loop_no_done envi _ _ _ _ _ Hnd).
  assert (Hlen : ∀ n e0, length (repeated_steps envi n action e0).1 = n).
  { induction n as [|n IH]; intros e0; [done|].
    rewrite repeated_steps_S. cbn [fst length]. by rewrite IH. }
  destruct (last (repeated_steps envi action_repeat action e).1) as [out|] eqn:Hl.
  - exists out. by rewrite Hlen.
  - apply last_None in Hl. specialize (Hlen action_repeat e).
    rewrite Hl in Hlen. simpl in Hlen. lia.
Qed.

Lemma Wrapper_step_sums_rewards_witness :
  0 < 1 ∧
  Forall (λ out : list R * R * bool, out.2 = false)
         (repeated_steps env_ex 1 [0%R] 0).1 ∧
  ∃ out,
    last (repeated_steps env_ex 1 [0%R] 0).1 = Some out ∧
    length (repeated_steps env_ex 1 [0%R] 0).1 = 1 ∧
    Wrapper_step env_ex 1 [0%R] 0
    = Return ((out.1.1, add_rewards 0%R (repeated_steps env_ex 1 [0%R] 0).1,
               false),
              (repeated_steps env_ex 1 [0%R] 0).2).
Proof.
  assert (H1 : 0 < 1) by lia.
  assert (H2 : Forall (λ out : list R * R * bool, out.2 = false)
                      (repeated_steps env_ex 1 [0%R] 0).1)
    by (constructor; [reflexivity | constructor]).
  split; [exact H1|]. split; [exact H2|].
  exact (Wrapper_step_sums_rewards env_ex 1 [0%R] 0 H1 H2).
Defined.

Section Wrapper1Facts.
Context {E : Type} (envi : environment E).

Lemma Wrapper1_loop_as_Wrapper (n : nat) (action : list R) (r : R)
    (bound : option (list R * bool)) (e : E) :
  Wrapper1_step_loop envi n action r bound e
  = match Wrapper_step_loop envi n action r bound e with
    | Return ((ob, rr, d), e') =>
        match append_action ob action (Wrapper1_action_dim envi) with
        | Return ob' => Return ((ob', rr, d), e')
        | UnboundLocalError => UnboundLocalError
        | ReshapeError => ReshapeError
        end
    | UnboundLocalError => UnboundLocalError
    | ReshapeError => ReshapeError
    end.
Proof.
  revert r bound e. induction n as [|n IH]; intros r bound e.
  - simpl. by destruct bound as [[ob d]|].
  - cbn [Wrapper1_step_loop Wrapper_step_loop].
    destruct (env_step envi action e) as [[[ob rw] d] e'].
    destruct d; [done|]. apply IH.
Qed.

Lemma Env_wrapper_loop_spec (n : nat) (action : list R) (reward : R)
    (bound : option (list R * bool)) (e : E) :
  Env_wrapper_step_loop envi n action reward bound e
  = (add_penalised_rewards reward (repeated_steps envi n action e).1,
     match last (repeated_steps envi n action e).1 with
     | Some out => Some (out.1.1, out.2)
     | None => bound
     end,
     (repeated_steps envi n action e).2).
Proof.
  revert reward bound e. induction n as [|n IH]; intros reward bound e; [done|].
  cbn [Env_wrapper_step_loop]. rewrite repeated_steps_S.
  destruct (env_step envi action e) as [[[ob rw] d] e']. cbn [fst snd].
  rewrite IH. unfold add_penalised_rewards. cbn [foldl fst snd].
  destruct n as [|m]; [done|].
  rewrite repeated_steps_S. cbn [fst snd].
  set (out1 := (env_step envi action e').1).
  set (outs := (repeated_steps envi m action (env_step envi action e').2).1).
  change (last ((ob, rw, d) :: out1 :: outs)) with (last (out1 :: outs)).
  destruct (last (out1 :: outs)) as [out|] eqn:Hlast; [done|].
  by apply last_None in Hlast.
Qed.

Lemma repeated_steps_length (n : nat) (action : list R) (e : E) :
  length (repeated_steps envi n action e).1 = n.
Proof.
  revert e. induction n as [|n IH]; intros e; [done|].
  rewrite repeated_steps_S. cbn [fst length]. by rewrite IH.
Qed.

Lemma np_clip_bounds (x lo hi : R) :
  (lo <= hi)%R → (lo <= np_clip x lo hi <= hi)%R.
Proof.
  intros Hlh. unfold np_clip. split.
  - apply Rmin_glb; [apply Rmax_r | done].
  - apply Rmin_r.
Qed.
End Wrapper1Facts.

(** X4. [Wrapper1.step] behaves as [Wrapper.step] with the action appended
    to the observation: it fails where [Wrapper.step] fails, raises the
    reshape error when the action has not [action_dim] entries, and otherwise
    returns the same reward, flag and environment with the observation
    followed by the action.  [Wrapper1.reset] returns the observation
    followed by [action_dim] zeros. *)
Theorem Wrapper1_step_appends_action {E : Type} (envi : environment E)
    (action_repeat : nat) (action : list R) (e : E) :
  Wrapper1_step envi action_repeat action e
  = match Wrapper_step envi action_repeat action e with
    | Return ((ob, r, d), e') =>
        if decide (length action = Wrapper1_action_dim envi)
        then Return ((ob ++ action, r, d), e')
        else ReshapeError
    | UnboundLocalError => UnboundLocalError
    | ReshapeError => ReshapeError
    end ∧
  (∀ ob r d e',
     Wrapper1_step envi action_repeat action e = Return ((ob, r, d), e') →
     ∃ inner, ob = inner ++ action ∧
              length ob = length inner + Wrapper1_action_dim envi ∧
              Wrapper_step envi action_repeat action e
              = Return ((inner, r, d), e')) ∧
  (Wrapper1_reset envi e).1
    = (env_reset envi e).1 ++ replicate (Wrapper1_action_dim envi) 0%R ∧
  (length (env_reset envi e).1 = observation_dim envi →
   length (Wrapper1_reset envi e).1 = Wrapper1_obs_dim envi).
Proof.
  assert (Heq : Wrapper1_step envi action_repeat action e
    = match Wrapper_step envi action_repeat action e with
      | Return ((ob, r, d), e') =>
          if decide (length action = Wrapper1_action_dim envi)
          then Return ((ob ++ action, r, d), e')
          else ReshapeError
      | UnboundLocalError => UnboundLocalError
      | ReshapeError => ReshapeError
      end).
  { unfold Wrapper1_step, Wrapper_step. rewrite Wrapper1_loop_as_Wrapper.
    destruct (Wrapper_step_loop envi action_repeat action 0 None e)
      as [[[[ob r] d] e']| |]; [|done|done].
    unfold append_action. by destruct (decide _). }
  split; [exact Heq|]. split; [|split].
  - intros ob r d e' Hret. rewrite Heq in Hret.
    destruct (Wrapper_step envi action_repeat action e)
      as [[[[ob0 r0] d0] e0]| |]; [|done|done].
    destruct (decide (length action = Wrapper1_action_dim envi)) as [Hl|];
      [|done].
    injection Hret as <- <- <- <-. exists ob0.
    split; [done|]. split; [|done]. rewrite length_app. lia.
  - done.
  - intros Hlen. unfold Wrapper1_reset, Wrapper1_obs_dim. cbn [fst].
    unfold np_zeros. rewrite length_app, length_replicate. lia.
Qed.

Lemma Wrapper1_step_appends_action_witness :
  Wrapper1_step env_ex 3 [5%R] 0 = Return (([1%R] ++ [5%R], 0%R, true), 2) ∧
  length (env_reset env_ex 0).1 = observation_dim env_ex ∧
  length (Wrapper1_reset env_ex 0).1 = Wrapper1_obs_dim env_ex.
Proof.
  pose proof (Wrapper1_step_appends_action env_ex 3 [5%R] 0) as (H1 & _ & _ & H4).
  assert (Hlen : length (env_reset env_ex 0).1 = observation_dim env_ex)
    by reflexivity.
  split; [rewrite H1; reflexivity|]. split; [exact Hlen|]. exact (H4 Hlen).
Defined.



(** X6. Whatever [Env_wrapper.step] returns, for either flag, the reward
    lies in [[-50, 1000]]. *)
Theorem Env_wrapper_step_reward_clipped {E : Type} (envi : environment E)
    (flag : wrapper_flag) (action_repeat : nat) (action ob : list R) (e e' : E)
    (r : R) (d : bool) :
  Env_wrapper_step envi flag action_repeat action e = Return ((ob, r, d), e') →
  (-50 <= r <= 1000)%R.
Proof.
  unfold Env_wrapper_step.
  destruct (Env_wrapper_step_loop envi action_repeat action 0 None e)
    as [[reward bound] e1].
  destruct bound as [[ob1 d1]|]; [|done].
  assert (Hb := np_clip_bounds reward (-50) 1000 ltac:(lra)).
  destruct flag.
  - intros [= <- <- <- <-]. exact Hb.
  - destruct (append_action ob1 action (hd 0 (action_space_shape envi)));
      [|done|done].
    intros [= <- <- <- <-]. exact Hb.
Qed.

Lemma Env_wrapper_step_reward_clipped_witness :
  Env_wrapper_step env_ex flag_obs 1 [0%R] 0
    = Return (([1%R], np_clip (0 + (1 - 0.001)) (-50) 1000, false), 1) ∧
  (-50 <= np_clip (0 + (1 - 0.001)) (-50) 1000 <= 1000)%R.
Proof.
  assert (H : Env_wrapper_step env_ex flag_obs 1 [0%R] 0
    = Return (([1%R], np_clip (0 + (1 - 0.001)) (-50) 1000, false), 1))
    by reflexivity.
  split; [exact H|].
  exact (Env_wrapper_step_reward_clipped env_ex flag_obs 1 [0%R] [1%R] 0 1 _ false H).
Defined.

(** X7. Errors of [Env_wrapper.step]: with [action_repeat = 0] it raises
    UnboundLocalError for either flag; with [action_repeat >= 1] and flag
    ["obs"] it always returns; with flag ["obs_act"] it returns exactly when
    the action has [act_dim] entries, the observation then ending with the
    action, and raises the reshape error otherwise. *)
Theorem Env_wrapper_step_errors {E : Type} (envi : environment E)
    (flag : wrapper_flag) (action_repeat : nat) (action : list R) (e : E) :
  (action_repeat = 0 →
   Env_wrapper_step envi flag action_repeat action e = UnboundLocalError) ∧
  (0 < action_repeat → flag = flag_obs →
   ∃ res, Env_wrapper_step envi flag action_repeat action e = Return res) ∧
  (0 < action_repeat → flag = flag_obs_act →
   (length action = hd 0 (action_space_shape envi) →
    ∃ inner r d e',
      Env_wrapper_step envi flag action_repeat action e
      = Return ((inner ++ action, r, d), e')) ∧
   (length action ≠ hd 0 (action_space_shape envi) →
    Env_wrapper_step envi flag action_repeat action e = ReshapeError)).
Proof.
  split; [|split].
  - intros ->. by destruct flag.
  - intros Hn ->. unfold Env_wrapper_step. rewrite Env_wrapper_loop_spec.
    pose proof (repeated_steps_length envi action_repeat action e) as Hlen.
    destruct (last (repeated_steps envi action_repeat action e).1)
      as [out|] eqn:Hl; [eauto|].
    apply last_None in Hl. rewrite Hl in Hlen. simpl in Hlen. lia.
  - intros Hn ->. unfold Env_wrapper_step. rewrite Env_wrapper_loop_spec.
    pose proof (repeated_steps_length envi action_repeat action e) as Hlen.
    destruct (last (repeated_steps envi action_repeat action e).1)
      as [out|] eqn:Hl.
    + unfold append_action. split; intros Ha.
      * rewrite decide_True by done. eauto.
      * by rewrite decide_False.
    + apply last_None in Hl. rewrite Hl in Hlen. simpl in Hlen. lia.
Qed.

(** ** ReplayBuffer, continued *)

Lemma randint_range (low high n : nat) (g g' : rng_state) (idxs : list nat) :
  randint low high n g = Ok (idxs, g') →
  length idxs = n ∧ Forall (λ i, low ≤ i < high) idxs.
Proof.
  unfold randint. destruct (decide (n = 0)) as [->|Hn].
  - intros [= <- _]. split; [done | constructor].
  - destruct (decide (high ≤ low)) as [|Hlh]; [done|].
    intros [= <- _]. split; [by rewrite length_map, length_seq|].
    apply Forall_forall. intros i Hi.
    apply list_elem_of_fmap in Hi as (k & -> & _).
    pose proof (Nat.mod_upper_bound (raw g (consumed g + k)) (high - low)).
    lia.
Qed.

Lemma getitems_lookup {A : Type} (a : list A) (idxs : list nat) (xs : list A) :
  getitems a idxs = Ok xs →
  ∀ k i, idxs !! k = Some i → xs !! k = a !! i ∧ is_Some (a !! i).
Proof.
  revert xs. induction idxs as [|i0 idxs IH]; intros xs Hget k i Hk.
  - by rewrite lookup_nil in Hk.
  - cbn [getitems] in Hget. destruct (a !! i0) as [x|] eqn:Hx; [|done].
    destruct (getitems a idxs) as [ys|] eqn:Hys; [|done].
    cbn [mbind result_bind] in Hget. injection Hget as <-.
    destruct k as [|k]; simpl in *.
    + injection Hk as <-. rewrite Hx. eauto.
    + by apply IH.
Qed.

Lemma filled_slot (N : nat) (ts : list Transition) (b : ReplayBuffer) (i : nat) :
  0 < N → filled N ts b → i < N → i < length ts →
  ∃ j t, ts !! j = Some t ∧ length ts ≤ j + N ∧ j `mod` N = i ∧
         row_at b i = Some (stored t).
Proof.
  intros HN [Hwf Hmax Hptr Hsize Hrows] HiN Hik.
  set (k := length ts) in *.
  set (q := (k - 1 - i) `div` N).
  pose proof (Nat.div_mod_eq (k - 1 - i) N) as Hdm.
  pose proof (Nat.mod_upper_bound (k - 1 - i) N ltac:(lia)) as Hub.
  fold q in Hdm.
  assert (Hjk : i + q * N < k) by nia.
  destruct (lookup_lt_is_Some_2 ts (i + q * N) Hjk) as [t Ht].
  exists (i + q * N), t.
  assert (Hmod : (i + q * N) `mod` N = i).
  { rewrite Nat.Div0.mod_add. by apply Nat.mod_small. }
  split; [done|]. split; [nia|]. split; [done|].
  rewrite <- Hmod at 1. apply Hrows; [done | nia].
Qed.

(** X8. On a well-formed buffer [store] succeeds and writes the transition
    into the slot under the cursor and nowhere else; the capacity is kept,
    the cursor moves on by one and wraps to 0 at the capacity, the size grows
    by one unless the buffer is full, and the buffer stays well formed. *)
Theorem store_writes_only_cursor_slot (b : ReplayBuffer) (t : Transition) :
  buffer_wf b →
  ∃ b', store b t = Ok b' ∧
    row_at b' (ptr b) = Some (stored t) ∧
    (∀ i, i ≠ ptr b → row_at b' i = row_at b i) ∧
    max_size b' = max_size b ∧
    ptr b' = (if decide (ptr b + 1 = max_size b) then 0 else ptr b + 1) ∧
    size b' = (if decide (size b = max_size b) then size b else size b + 1) ∧
    buffer_wf b'.
Proof.
  intros Hwf. assert (Hst := store_wf b t Hwf).
  eexists. split; [exact Hst|].
  pose proof (row_at_store b t _ (ptr b) Hwf Hst) as Hrow.
  rewrite decide_True in Hrow by done.
  split; [exact Hrow|]. split; [|split; [|split; [|split]]].
  - intros i Hi. rewrite (row_at_store b t _ i Hwf Hst). by rewrite decide_False.
  - done.
  - cbn [ptr]. destruct Hwf as [_ _ _ _ _ Hp _].
    destruct (decide (ptr b + 1 = max_size b)) as [->|Hne].
    + apply Nat.Div0.mod_same.
    + apply Nat.mod_small. lia.
  - cbn [size]. destruct Hwf as [_ _ _ _ _ _ Hs].
    destruct (decide (size b = max_size b)); lia.
  - by eapply store_preserves_wf.
Qed.

Lemma store_writes_only_cursor_slot_witness :
  buffer_wf buf_one ∧
  ∃ b', store buf_one tr1 = Ok b' ∧
    row_at b' (ptr buf_one) = Some (stored tr1) ∧
    (∀ i, i ≠ ptr buf_one → row_at b' i = row_at buf_one i).
Proof.
  split; [exact buf_one_wf|].
  destruct (store_writes_only_cursor_slot buf_one tr1 buf_one_wf)
    as (b' & H1 & H2 & H3 & _).
  exists b'. split; [exact H1|]. split; [exact H2 | exact H3].
Defined.

Lemma sample_batch_rows (b : ReplayBuffer) (n : nat) (g : rng_state)
    (batch : Batch) (b' : ReplayBuffer) (g' : rng_state) :
  sample_batch b n g = Ok (batch, b', g') →
  length (b_obs1 batch) = n ∧
  ∀ k, k < n →
    ∃ i, i < size b ∧ is_Some (row_at b i) ∧ batch_row batch k = row_at b i.
Proof.
  unfold sample_batch.
  destruct (randint 0 (size b) n g) as [[idxs g1]|] eqn:Hr; [|done].
  destruct (randint_range _ _ _ _ _ _ Hr) as [Hlen Hrange].
  cbn [mbind result_bind].
  destruct (getitems (obs1_buf b) idxs) as [o1|] eqn:H1; [|done].
  destruct (getitems (obs2_buf b) idxs) as [o2|] eqn:H2; [|done].
  destruct (getitems (acts_buf b) idxs) as [ac|] eqn:H3; [|done].
  destruct (getitems (rews_buf b) idxs) as [rw|] eqn:H4; [|done].
  destruct (getitems (done_buf b) idxs) as [dn|] eqn:H5; [|done].
  cbn [mbind result_bind]. intros [= <- _ _].
  assert (Hl1 : length o1 = length idxs).
  { clear -H1. revert o1 H1. induction idxs as [|i idxs IH]; intros o1 H1.
    - by injection H1 as <-.
    - cbn [getitems] in H1. destruct (obs1_buf b !! i); [|done].
      destruct (getitems (obs1_buf b) idxs) as [ys|]; [|done].
      cbn [mbind result_bind] in H1. injection H1 as <-. simpl.
      f_equal. by apply IH. }
  split; [cbn [b_obs1]; lia|].
  intros k Hk.
  destruct (lookup_lt_is_Some_2 idxs k ltac:(lia)) as [i Hi].
  exists i.
  assert (Hin : 0 ≤ i < size b).
  { eapply Forall_lookup_1 in Hrange; [|exact Hi]. exact Hrange. }
  destruct (getitems_lookup _ _ _ H1 k i Hi) as [E1 [x1 S1]].
  destruct (getitems_lookup _ _ _ H2 k i Hi) as [E2 [x2 S2]].
  destruct (getitems_lookup _ _ _ H3 k i Hi) as [E3 [x3 S3]].
  destruct (getitems_lookup _ _ _ H4 k i Hi) as [E4 [x4 S4]].
  destruct (getitems_lookup _ _ _ H5 k i Hi) as [E5 [x5 S5]].
  split; [lia|]. unfold batch_row, row_at.
  cbn [b_obs1 b_obs2 b_acts b_rews b_done].
  rewrite E1, E2, E3, E4, E5, S1, S2, S3, S4, S5. split; [eauto | done].
Qed.

(** X9. Every row of a batch is one slot of the buffer, the same slot for
    all five arrays, and that slot lies below [size]: the five arrays of a
    batch stay aligned, and slots at or above [size] are never sampled. *)
Theorem sample_batch_rows_aligned (b : ReplayBuffer) (n : nat) (g : rng_state)
    (batch : Batch) (b' : ReplayBuffer) (g' : rng_state) :
  sample_batch b n g = Ok (batch, b', g') →
  length (b_obs1 batch) = n ∧
  ∀ k, k < n →
    ∃ i, i < size b ∧ is_Some (row_at b i) ∧ batch_row batch k = row_at b i.
Proof. apply sample_batch_rows. Qed.

Lemma sample_batch_rows_aligned_witness :
  ∃ batch g',
    sample_batch buf_one 2 gen0 = Ok (batch, buf_one, g') ∧
    length (b_obs1 batch) = 2 ∧
    ∀ k, k < 2 →
      ∃ i, i < size buf_one ∧ is_Some (row_at buf_one i) ∧
           batch_row batch k = row_at buf_one i.
Proof.
  eexists _, _. split; [reflexivity|].
  exact (sample_batch_rows_aligned buf_one 2 gen0 _ _ _ eq_refl).
Defined.

(** X10. Store then sample: after any non-empty sequence [ts] of stores into
    a fresh buffer of capacity [N >= 1], every [sample_batch] call returns,
    and every row of the batch is one of the stored transitions, among the
    last [N] of them; the zero rows the constructor wrote are never
    returned. *)
Theorem sampled_rows_were_stored (obs_dim act_dim N : nat)
    (ts : list Transition) (n : nat) (g : rng_state) :
  0 < N → 0 < length ts →
  ∃ b batch g',
    store_all (ReplayBuffer_init obs_dim act_dim N) ts = Ok b ∧
    sample_batch b n g = Ok (batch, b, g') ∧
    ∀ k, k < n →
      ∃ j t, ts !! j = Some t ∧ length ts ≤ j + N ∧
             batch_row batch k = Some (stored t).
Proof.
  intros HN Hts.
  destruct (store_all_filled N [] ts _ HN (filled_init obs_dim act_dim N HN))
    as (b & Hall & Hf).
  simpl in Hf. assert (Hf' := Hf). destruct Hf' as [Hwf Hmax Hptr Hsize Hrows].
  assert (Hsz : 0 < size b) by lia.
  destruct (sample_batch_ok b n g Hwf Hsz) as (batch & Hs & _).
  exists b, batch, (mk_rng (raw g) (consumed g + n)).
  split; [done|]. split; [done|].
  intros k Hk.
  destruct (sample_batch_rows b n g _ _ _ Hs) as [_ Hrow].
  destruct (Hrow k Hk) as (i & Hi & _ & Hbr).
  destruct (filled_slot N ts b i HN Hf ltac:(lia) ltac:(lia))
    as (j & t & Ht & Hj & _ & Hr).
  exists j, t. split; [done|]. split; [done|]. by rewrite Hbr.
Qed.

Lemma sampled_rows_were_stored_witness :
  0 < 2 ∧ 0 < length [tr0; tr1; tr2] ∧
  ∃ b batch g',
    store_all (ReplayBuffer_init 1 1 2) [tr0; tr1; tr2] = Ok b ∧
    sample_batch b 4 gen0 = Ok (batch, b, g') ∧
    ∀ k, k < 4 →
      ∃ j t, [tr0; tr1; tr2] !! j = Some t ∧ length [tr0; tr1; tr2] ≤ j + 2 ∧
             batch_row batch k = Some (stored t).
Proof.
  assert (H1 : 0 < 2) by lia.
  assert (H2 : 0 < length [tr0; tr1; tr2]) by (simpl; lia).
  split; [exact H1|]. split; [exact H2|].
  exact (sampled_rows_were_stored 1 1 2 [tr0; tr1; tr2] 4 gen0 H1 H2).
Defined.

(** X11. A buffer of capacity 0 has no slot: every [store] raises IndexError,
    whatever the dimensions and the transition, and so does every non-empty
    sequence of stores. *)
Theorem store_capacity_zero_fails (obs_dim act_dim : nat) (t : Transition)
    (ts : list Transition) :
  store (ReplayBuffer_init obs_dim act_dim 0) t = Raise IndexError ∧
  store_all (ReplayBuffer_init obs_dim act_dim 0) (t :: ts) = Raise IndexError.
Proof.
  assert (H : store (ReplayBuffer_init obs_dim act_dim 0) t = Raise IndexError)
    by reflexivity.
  split; [exact H|]. cbn [store_all]. by rewrite H.
Qed.

(** ** ObjectiveBuilder, continued *)

Lemma sum_squares_nonneg (l : list R) :
  (0 <= reduce_sum (map (λ x, x * x) l))%R.
Proof.
  induction l as [|x l IH]; simpl; [lra|].
  unfold reduce_sum in *. simpl. nra.
Qed.

Lemma sum_squares_zero (l : list R) :
  reduce_sum (map (λ x, (x * x)%R) l) = 0%R → Forall (λ x, x = 0%R) l.
Proof.
  induction l as [|x l IH]; intros Hs; [constructor|].
  pose proof (sum_squares_nonneg l) as Hl.
  unfold reduce_sum in *. simpl in Hs.
  assert (Hx : (x * x = 0)%R) by nra.
  constructor; [nra | apply IH; nra].
Qed.

Lemma t_sub_zero (a b : list R) :
  length a = length b → Forall (λ x, x = 0%R) (t_sub a b) → a = b.
Proof.
  revert b. induction a as [|x a IH]; intros [|y b] Hlen Hz; try done.
  unfold t_sub in *. simpl in *.
  apply Forall_cons in Hz as [Hxy Hz].
  f_equal; [lra | apply IH; [lia | done]].
Qed.

Lemma t_sub_self (a : list R) : Forall (λ x, x = 0%R) (t_sub a a).
Proof.
  induction a as [|x a IH]; [constructor|].
  unfold t_sub in *. simpl. constructor; [lra | done].
Qed.

Lemma sum_squares_of_zeros (l : list R) :
  Forall (λ x, x = 0%R) l → reduce_sum (map (λ x, (x * x)%R) l) = 0%R.
Proof.
  induction 1 as [|x l -> _ IH]; [done|].
  unfold reduce_sum in *. simpl. rewrite IH. lra.
Qed.

Lemma q_loss_nonneg (q_bkp q : list R) : (0 <= q_loss q_bkp q)%R.
Proof.
  unfold q_loss, reduce_mean.
  pose proof (sum_squares_nonneg (t_sub q_bkp q)) as Hs.
  set (l := map (λ x, (x * x)%R) (t_sub q_bkp q)) in *.
  destruct (length l) as [|n] eqn:Hn.
  - simpl. unfold Rdiv. rewrite Rinv_0. lra.
  - assert (0 < INR (S n))%R by (apply lt_0_INR; lia).
    assert (0 <= reduce_sum l / INR (S n))%R.
    { apply Rmult_le_pos; [done|]. left. by apply Rinv_0_lt_compat. }
    lra.
Qed.

Lemma q_loss_zero_iff (q_bkp q : list R) :
  length q = length q_bkp → 0 < length q_bkp →
  q_loss q_bkp q = 0%R ↔ q = q_bkp.
Proof.
  intros Hlen Hpos. unfold q_loss, reduce_mean.
  assert (Hn : length (map (λ x, (x * x)%R) (t_sub q_bkp q)) = length q_bkp).
  { unfold t_sub. rewrite length_map, length_zip_with. lia. }
  rewrite Hn.
  assert (HI : (0 < INR (length q_bkp))%R) by (by apply lt_0_INR).
  split.
  - intros Hz.
    assert (Hs : reduce_sum (map (λ x, (x * x)%R) (t_sub q_bkp q)) = 0%R).
    { assert (Hd : (reduce_sum (map (λ x, x * x) (t_sub q_bkp q))
                    / INR (length q_bkp) = 0)%R) by lra.
      apply (Rmult_eq_compat_r (INR (length q_bkp))) in Hd.
      unfold Rdiv in Hd. rewrite Rmult_assoc, Rinv_l, Rmult_1_r, Rmult_0_l in Hd
        by lra. exact Hd. }
    symmetry. apply t_sub_zero; [lia|]. by apply sum_squares_zero.
  - intros ->. rewrite (sum_squares_of_zeros _ (t_sub_self q_bkp)).
    unfold Rdiv. lra.
Qed.

(** X16. The value loss is never negative, and on a non-empty batch it is
    zero exactly when both Q-networks reproduce the regression target on
    every entry. *)
Theorem value_loss_zero_iff (q_bkp q1 q2 : list R) :
  length q1 = length q_bkp → length q2 = length q_bkp → 0 < length q_bkp →
  (0 <= q_loss q_bkp q1)%R ∧ (0 <= q_loss q_bkp q2)%R ∧
  (0 <= value_loss q_bkp q1 q2)%R ∧
  (value_loss q_bkp q1 q2 = 0%R ↔ q1 = q_bkp ∧ q2 = q_bkp).
Proof.
  intros H1 H2 Hpos.
  pose proof (q_loss_nonneg q_bkp q1) as N1.
  pose proof (q_loss_nonneg q_bkp q2) as N2.
  split; [done|]. split; [done|]. unfold value_loss. split; [lra|].
  rewrite <- (q_loss_zero_iff q_bkp q1 H1 Hpos).
  rewrite <- (q_loss_zero_iff q_bkp q2 H2 Hpos).
  split; [intros Hz; split; lra | intros [-> ->]; lra].
Qed.

Lemma value_loss_zero_iff_witness :
  length [1%R; 2%R] = length [1%R; 2%R] ∧ 0 < length [1%R; 2%R] ∧
  (value_loss [1%R; 2%R] [1%R; 2%R] [1%R; 2%R] = 0%R ↔
   [1%R; 2%R] = [1%R; 2%R] ∧ [1%R; 2%R] = [1%R; 2%R]).
Proof.
  assert (Hpos : 0 < length [1%R; 2%R]) by (simpl; lia).
  split; [reflexivity|]. split; [exact Hpos|].
  exact (proj2 (proj2 (proj2
    (value_loss_zero_iff [1%R; 2%R] [1%R; 2%R] [1%R; 2%R] eq_refl eq_refl Hpos)))).
Defined.

(** ** Optimizer steps and the variables they write *)

Lemma main_pi_not_main_q (layout : list (subnet * nat)) (alpha : alpha_cfg)
    (v : variable) :
  v ∈ get_vars layout alpha s_main_pi → v ∉ get_vars layout alpha s_main_q.
Proof.
  unfold get_vars. intros [Hpi _]%list_elem_of_filter [Hq _]%list_elem_of_filter.
  destruct v as [[|] [[] ?]|]; done.
Qed.

Lemma get_vars_members (layout : list (subnet * nat)) (alpha : alpha_cfg)
    (sn : scope_name) (v : variable) :
  v ∈ get_vars layout alpha sn →
  in_scope sn v = true ∧ ∃ sc x, v = NetVar sc x ∧ x ∈ layout.
Proof.
  unfold get_vars, global_variables.
  intros [Hs Hin]%list_elem_of_filter. split; [done|].
  apply elem_of_app in Hin as [Hin|Hin].
  - apply list_elem_of_fmap in Hin as (x & -> & Hx). eauto.
  - apply elem_of_app in Hin as [Hin|Hin].
    + apply list_elem_of_fmap in Hin as (x & -> & Hx). eauto.
    + destruct alpha; [by apply elem_of_nil in Hin|].
      apply list_elem_of_singleton in Hin as ->. by destruct sn.
Qed.

(** X17. Each optimizer step writes only its own variables.  [train_pi_op]
    leaves every variable outside ['main/pi'] as it was, in particular the
    two main Q-networks and [log_alpha]; [train_value_op] leaves every
    variable outside ['main/q'] as it was, in particular the policy and
    [log_alpha]; [train_alpha_op] leaves every network variable as it was.
    The two variable lists have no variable in common, and each step
    advances only its own optimizer's step count. *)
Theorem optimizer_steps_write_own_variables (net : networks)
    (layout : list (subnet * nat)) (alpha : alpha_cfg) (shape : list nat)
    (lr : R) (b : Batch) (ss : session) :
  (∀ v, v ∉ get_vars layout alpha s_main_pi →
        vars (train_pi_op net layout alpha lr b ss) v = vars ss v) ∧
  (∀ v, v ∉ get_vars layout alpha s_main_q →
        vars (train_value_op net layout alpha lr b ss) v = vars ss v) ∧
  (∀ sc x, vars (train_alpha_op net shape lr b ss) (NetVar sc x)
           = vars ss (NetVar sc x)) ∧
  (∀ v, v ∈ get_vars layout alpha s_main_pi →
        (v ∉ get_vars layout alpha s_main_q) ∧ v ≠ LogAlpha) ∧
  (∀ v, v ∈ get_vars layout alpha s_main_q → v ≠ LogAlpha) ∧
  (adam_t (pi_optimizer (train_pi_op net layout alpha lr b ss))
     = S (adam_t (pi_optimizer ss)) ∧
   value_optimizer (train_pi_op net layout alpha lr b ss) = value_optimizer ss ∧
   alpha_optimizer (train_pi_op net layout alpha lr b ss) = alpha_optimizer ss) ∧
  (adam_t (value_optimizer (train_value_op net layout alpha lr b ss))
     = S (adam_t (value_optimizer ss)) ∧
   pi_optimizer (train_value_op net layout alpha lr b ss) = pi_optimizer ss ∧
   alpha_optimizer (train_value_op net layout alpha lr b ss) = alpha_optimizer ss).
Proof.
  split; [|split; [|split; [|split; [|split; [|split]]]]].
  - intros v Hv. unfold train_pi_op. cbn [vars]. by apply adam_minimize_frame.
  - intros v Hv. unfold train_value_op. cbn [vars]. by apply adam_minimize_frame.
  - intros sc x. unfold train_alpha_op. cbn [vars]. apply adam_minimize_frame.
    intros Hin. apply list_elem_of_singleton in Hin. discriminate Hin.
  - intros v Hv. split; [by apply main_pi_not_main_q|].
    intros ->. by destruct (get_vars_members _ _ _ _ Hv) as [Hs _].
  - intros v Hv ->. by destruct (get_vars_members _ _ _ _ Hv) as [Hs _].
  - unfold train_pi_op. cbn [pi_optimizer value_optimizer alpha_optimizer].
    by rewrite adam_minimize_t.
  - unfold train_value_op. cbn [pi_optimizer value_optimizer alpha_optimizer].
    by rewrite adam_minimize_t.
Qed.

(** ** Executions of [sess.run(step_ops)], continued *)

Section Progress.
Context (net : networks) (layout : list (subnet * nat)) (alpha : alpha_cfg).
Context (shape : list nat) (lr polyak : R) (b : Batch).

Lemma can_advance (tr : list event) (ss : session) (o : op) :
  o ∈ step_ops alpha →
  (∀ d, d ∈ control_inputs o → Finish d ∈ tr) →
  Finish o ∉ tr →
  ∃ st', run_step net layout alpha shape lr polyak b (tr, ss) st'.
Proof.
  intros Ho Hdeps Hnot.
  destruct (decide (Start o ∈ tr)) as [Hs|Hs].
  - eexists. by apply run_finish.
  - eexists. by apply run_start.
Qed.

Lemma step_ops_three (o : op) :
  o ∈ [Op_train_pi; Op_train_value; Op_target_update] → o ∈ step_ops alpha.
Proof.
  intros Ho. destruct alpha; simpl; [done|].
  change (o ∈ [Op_train_pi; Op_train_value; Op_target_update]
              ++ [Op_train_alpha]).
  apply elem_of_app. by left.
Qed.

Lemma progress_or_complete (tr : list event) (ss : session) :
  complete alpha tr ∨
  ∃ st', run_step net layout alpha shape lr polyak b (tr, ss) st'.
Proof.
  destruct (decide (Finish Op_train_pi ∈ tr)) as [Hpi|Hpi].
  2:{ right. apply (can_advance tr ss Op_train_pi);
        [apply step_ops_three; elem_of_list | | done].
      intros d Hd. by apply elem_of_nil in Hd. }
  destruct (decide (Finish Op_train_value ∈ tr)) as [Hv|Hv].
  2:{ right. apply (can_advance tr ss Op_train_value);
        [apply step_ops_three; elem_of_list | | done].
      intros d ->%list_elem_of_singleton. done. }
  destruct (decide (Finish Op_target_update ∈ tr)) as [Ht|Ht].
  2:{ right. apply (can_advance tr ss Op_target_update);
        [apply step_ops_three; elem_of_list | | done].
      intros d ->%list_elem_of_singleton. done. }
  destruct alpha as [a|] eqn:Ha.
  - left. intros o Ho. simpl in Ho.
    repeat (apply elem_of_cons in Ho as [->|Ho]; [done|]).
    by apply elem_of_nil in Ho.
  - destruct (decide (Finish Op_train_alpha ∈ tr)) as [Hal|Hal].
    + left. intros o Ho. simpl in Ho.
      repeat (apply elem_of_cons in Ho as [->|Ho]; [done|]).
      by apply elem_of_nil in Ho.
    + right. rewrite <- Ha. apply (can_advance tr ss Op_train_alpha);
        [rewrite Ha; simpl; elem_of_list | | done].
      intros d Hd. by apply elem_of_nil in Hd.
Qed.

Lemma execution_events_fetched (ss : session) (tr : list event) (ss' : session) :
  execution net layout alpha shape lr polyak b ss (tr, ss') →
  ∀ e, e ∈ tr → e ∈ map Start (step_ops alpha) ++ map Finish (step_ops alpha).
Proof.
  intros Hex e He.
  destruct (execution_invariant _ _ _ _ _ _ _ _ _ _ Hex) as (_ & _ & Hf).
  destruct (execution_effect _ _ _ _ _ _ _ _ _ _ Hex) as [_ Hfetch].
  apply elem_of_app. destruct e as [o|o].
  - left. apply list_elem_of_fmap. exists o. split; [done | by apply Hfetch].
  - right. apply list_elem_of_fmap. exists o. split; [done|].
    apply Hfetch. apply list_elem_of_split in He as (l1 & l2 & ->).
    apply elem_of_app. left. by eapply Hf.
Qed.
End Progress.

(** X18. One [sess.run(step_ops)] can neither deadlock nor run forever: in
    every state of an execution either all fetched operations have finished
    or some operation can start or finish; every event belongs to a fetched
    operation and occurs at most once, so an execution has at most two
    events per fetched operation. *)
Theorem execution_progress_and_bound (net : networks)
    (layout : list (subnet * nat)) (alpha : alpha_cfg) (shape : list nat)
    (lr polyak : R) (b : Batch) (ss : session) (tr : list event)
    (ss' : session) :
  execution net layout alpha shape lr polyak b ss (tr, ss') →
  (complete alpha tr ∨
   ∃ st', run_step net layout alpha shape lr polyak b (tr, ss') st') ∧
  length tr ≤ 2 * length (step_ops alpha) ∧
  (∀ o, Start o ∈ tr ∨ Finish o ∈ tr → o ∈ step_ops alpha).
Proof.
  intros Hex. split; [apply progress_or_complete|].
  destruct (execution_invariant _ _ _ _ _ _ _ _ _ _ Hex) as (Hnd & _ & _).
  pose proof (execution_events_fetched _ _ _ _ _ _ _ _ _ _ Hex) as Hall.
  split.
  - replace (2 * length (step_ops alpha))
      with (length (map Start (step_ops alpha) ++ map Finish (step_ops alpha)))
      by (rewrite length_app, !length_map; lia).
    by apply submseteq_length, NoDup_submseteq.
  - intros o [Ho|Ho]; apply Hall in Ho;
      apply elem_of_app in Ho as [Ho|Ho];
      apply list_elem_of_fmap in Ho as (o' & Heq & Ho');
      by simplify_eq.
Qed.

Lemma execution_progress_and_bound_witness :
  execution net0 layout3 AlphaAuto [1] 0.0005%R 0.995%R batch2 sess0
    (sequential_trace (step_ops AlphaAuto),
     foldl (λ acc o, apply_op net0 layout3 AlphaAuto [1] 0.0005%R 0.995%R
                       batch2 o acc) sess0 (step_ops AlphaAuto)) ∧
  length (sequential_trace (step_ops AlphaAuto))
    ≤ 2 * length (step_ops AlphaAuto).
Proof.
  pose proof (proj1 (sequential_execution net0 layout3 AlphaAuto [1]
                       0.0005%R 0.995%R batch2 sess0)) as Hex.
  split; [exact Hex|].
  exact (proj1 (proj2 (execution_progress_and_bound _ _ _ _ _ _ _ _ _ _ Hex))).
Defined.

(** ** TrainingLoop, continued *)

Lemma count_log_app (p : log_entry → bool) (l k : list log_entry) :
  count_log p (l ++ k) = count_log p l + count_log p k.
Proof. unfold count_log. by rewrite filter_app, length_app. Qed.

Lemma count_log_steps (p : log_entry → bool) (c : bool)
    (outs : list (list (list R))) :
  (∀ x, p (LogStep x) = c) →
  count_log p (map LogStep outs) = if c then length outs else 0.
Proof.
  intros Hp. unfold count_log. induction outs as [|x outs IH]; simpl.
  - by destruct c.
  - destruct c.
    + rewrite filter_cons_True by apply Hp. simpl. by rewrite IH.
    + rewrite filter_cons_False by (rewrite Hp; done). exact IH.
Qed.

Section LoopRun.
Context {E : Type} (envi : environment E) (net : networks).
Context (layout : list (subnet * nat)) (cfg : config).

(** One test episode takes at most [remaining] steps. *)
Lemma test_episode_length (ss : session) (remaining : nat) (ob : list R)
    (ret : R) (len : nat) (e : E) :
  len ≤ (test_episode envi net ss remaining ob ret len e).1.2
      ≤ len + remaining.
Proof.
  revert ob ret len e. induction remaining as [|k IH]; intros ob ret len e.
  - simpl. lia.
  - cbn [test_episode].
    destruct (env_step envi (get_action net ob true ss).1 e)
      as [[[o2 r] d] e'].
    destruct d; [simpl; lia|].
    specialize (IH o2 (ret + r)%R (len + 1) e'). lia.
Qed.

(** [test_agent] touches the test environment and the logger only. *)
Lemma test_agent_spec (n : nat) (st : loop_state E) :
  let st' := test_agent envi net cfg n st in
  env st' = env st ∧ sess st' = sess st ∧
  replay_buffer st' = replay_buffer st ∧ np_random st' = np_random st ∧
  o st' = o st ∧ ep_ret st' = ep_ret st ∧ ep_len st' = ep_len st ∧
  ∃ l, logger st' = logger st ++ l ∧ length l = n ∧
       Forall (λ entry, ∃ ret len, entry = LogTestEpisode ret len ∧
                                   len ≤ max_ep_len_test cfg) l.
Proof.
  revert st. induction n as [|n IH]; intros st.
  - simpl. repeat split; try done. exists []. by rewrite app_nil_r.
  - cbn [test_agent].
    pose proof (test_episode_length (sess st) (max_ep_len_test cfg)
                  (env_reset envi (test_env st)).1 0%R 0
                  (env_reset envi (test_env st)).2) as Hlen.
    destruct (test_episode envi net (sess st) (max_ep_len_test cfg)
                (env_reset envi (test_env st)).1 0%R 0
                (env_reset envi (test_env st)).2) as [[ret len] e'].
    cbn [fst snd] in Hlen.
    match goal with |- context [test_agent _ _ _ n ?s] =>
      destruct (IH s) as (H1 & H2 & H3 & H4 & H5 & H6 & H7 & l & Hl & Hn & Hall)
    end.
    cbn [env sess replay_buffer np_random o ep_ret ep_len logger] in *.
    cbv zeta. rewrite H1, H2, H3, H4, H5, H6, H7.
    repeat split; try done.
    exists (LogTestEpisode ret len :: l). split; [|split].
    + rewrite Hl. by rewrite <- app_assoc.
    + simpl. by rewrite Hn.
    + constructor; [|done]. exists ret, len. split; [done | lia].
Qed.
End LoopRun.

Lemma count_log_tests (l : list log_entry) (bound : nat) :
  Forall (λ entry, ∃ ret len, entry = LogTestEpisode ret len ∧ len ≤ bound) l →
  count_log is_log_test l = length l ∧ count_log is_log_epoch l = 0 ∧
  count_log is_log_step l = 0 ∧ count_log is_log_episode l = 0.
Proof.
  unfold count_log.
  induction 1 as [|entry l (ret & len & -> & _) _ (H1 & H2 & H3 & H4)]; [done|].
  rewrite filter_cons_True by done.
  rewrite !filter_cons_False by done. simpl. by rewrite H1, H2, H3, H4.
Qed.

Section EpochFacts.
Context {E : Type} (envi : environment E) (net : networks).
Context (layout : list (subnet * nat)) (cfg : config).

Lemma epoch_wrap_up_off (t : nat) (st : loop_state E) :
  t = 0 ∨ (0 < steps_per_epoch cfg ∧ t `mod` steps_per_epoch cfg ≠ 0) →
  epoch_wrap_up envi net cfg t st = Ok st.
Proof.
  unfold epoch_wrap_up. intros [-> | [Hspe Hmod]]; [done|].
  destruct (decide (0 < t)); [|done].
  unfold py_mod. rewrite decide_False by lia. cbn [mbind result_bind].
  by rewrite decide_False.
Qed.

Lemma epoch_wrap_up_on (t : nat) (st : loop_state E) :
  0 < t → 0 < steps_per_epoch cfg → t `mod` steps_per_epoch cfg = 0 →
  0 < save_freq cfg →
  ∃ st' l,
    epoch_wrap_up envi net cfg t st = Ok st' ∧
    env st' = env st ∧ sess st' = sess st ∧
    replay_buffer st' = replay_buffer st ∧ np_random st' = np_random st ∧
    o st' = o st ∧ ep_ret st' = ep_ret st ∧ ep_len st' = ep_len st ∧
    logger st' = logger st ++ l ∧
    last l = Some (LogEpoch (t `div` steps_per_epoch cfg) t) ∧
    count_log is_log_epoch l = 1 ∧ count_log is_log_test l = 15 ∧
    count_log is_log_step l = 0 ∧ count_log is_log_episode l = 0 ∧
    (LogSaveState (t `div` steps_per_epoch cfg) ∈ l ↔
     (t `div` steps_per_epoch cfg) `mod` save_freq cfg = 0 ∨
     t `div` steps_per_epoch cfg = epochs cfg - 1).
Proof.
  intros Ht Hspe Hmod Hsf. unfold epoch_wrap_up.
  rewrite decide_True by done.
  unfold py_mod, py_floordiv. rewrite !decide_False by lia.
  cbn [mbind result_bind]. rewrite decide_True by done.
  rewrite !decide_False by lia. cbn [mbind result_bind].
  set (epoch := t `div` steps_per_epoch cfg).
  set (saved := if bool_decide (epoch `mod` save_freq cfg = 0)
                   || bool_decide (epoch = epochs cfg - 1)
                then [LogSaveState epoch] else []).
  match goal with |- context [test_agent _ _ _ 15 ?s] =>
    pose proof (test_agent_spec envi net cfg 15 s) as Hta;
    cbv zeta in Hta;
    cbn [env sess replay_buffer np_random o ep_ret ep_len logger] in Hta;
    revert Hta; generalize (test_agent envi net cfg 15 s)
  end.
  intros st2 (H1 & H2 & H3 & H4 & H5 & H6 & H7 & l & Hl & Hn & Hall).
  destruct (count_log_tests l _ Hall) as (C1 & C2 & C3 & C4).
  exists (mk_loop_state (env st2) (test_env st2) (sess st2) (replay_buffer st2)
            (np_random st2) (o st2) (ep_ret st2) (ep_len st2)
            (logger st2 ++ [LogEpoch epoch t])),
         (saved ++ l ++ [LogEpoch epoch t]).
  split; [reflexivity|].
  cbn [env sess replay_buffer np_random o ep_ret ep_len logger].
  rewrite H1, H2, H3, H4, H5, H6, H7, Hl.
  assert (Hsaved : count_log is_log_epoch saved = 0 ∧
                   count_log is_log_test saved = 0 ∧
                   count_log is_log_step saved = 0 ∧
                   count_log is_log_episode saved = 0).
  { unfold saved. by destruct (_ || _). }
  destruct Hsaved as (S1 & S2 & S3 & S4).
  repeat split; try done.
  - by rewrite <- !app_assoc.
  - rewrite app_assoc. apply last_snoc.
  - rewrite !count_log_app, S1, C2. done.
  - rewrite !count_log_app, S2, C1, Hn. done.
  - rewrite !count_log_app, S3, C3. done.
  - rewrite !count_log_app, S4, C4. done.
  - intros Hin. apply elem_of_app in Hin as [Hin|Hin].
    + unfold saved in Hin.
      destruct (bool_decide (epoch `mod` save_freq cfg = 0)) eqn:B1.
      { left. by apply bool_decide_eq_true in B1. }
      destruct (bool_decide (epoch = epochs cfg - 1)) eqn:B2.
      { right. by apply bool_decide_eq_true in B2. }
      by apply elem_of_nil in Hin.
    + exfalso. apply elem_of_app in Hin as [Hin|Hin].
      * eapply Forall_forall in Hall; [|exact Hin].
        by destruct Hall as (ret & len & Heq & _).
      * apply list_elem_of_singleton in Hin. discriminate Hin.
  - intros Hor. apply elem_of_app. left. unfold saved.
    destruct Hor as [Hm | He].
    + rewrite bool_decide_true by done. simpl. left.
    + rewrite (bool_decide_true (epoch = _)) by done.
      rewrite orb_true_r. left.
Qed.
End EpochFacts.

(** X19. [test_agent(n)] runs [n] test episodes and reports each of them,
    every one at most [max_ep_len_test] steps long; it leaves the training
    environment, the session, the replay buffer, the random generator and the
    state of the current training episode untouched. *)
Theorem test_agent_leaves_training_state {E : Type} (envi : environment E)
    (net : networks) (cfg : config) (n : nat) (st : loop_state E) :
  env (test_agent envi net cfg n st) = env st ∧
  sess (test_agent envi net cfg n st) = sess st ∧
  replay_buffer (test_agent envi net cfg n st) = replay_buffer st ∧
  np_random (test_agent envi net cfg n st) = np_random st ∧
  o (test_agent envi net cfg n st) = o st ∧
  ep_ret (test_agent envi net cfg n st) = ep_ret st ∧
  ep_len (test_agent envi net cfg n st) = ep_len st ∧
  ∃ l, logger (test_agent envi net cfg n st) = logger st ++ l ∧
       length l = n ∧
       Forall (λ entry, ∃ ret len, entry = LogTestEpisode ret len ∧
                                   len ≤ max_ep_len_test cfg) l.
Proof. apply (test_agent_spec envi net cfg n st). Qed.

(** X20. End of epoch wrap-up.  At iteration 0 and at iterations that are
    not a multiple of [steps_per_epoch] it does nothing.  At a positive
    multiple it sends 15 test-episode records and then the epoch record to
    the logger, preceded by a save of the state exactly when
    [epoch % save_freq == 0] or [epoch == epochs - 1], and changes nothing of
    the training state; with [save_freq = 0] it raises ZeroDivisionError
    there, and with [steps_per_epoch = 0] at every positive iteration. *)
Theorem epoch_wrap_up_spec {E : Type} (envi : environment E) (net : networks)
    (cfg : config) (t : nat) (st : loop_state E) :
  (t = 0 ∨ (0 < steps_per_epoch cfg ∧ t `mod` steps_per_epoch cfg ≠ 0) →
   epoch_wrap_up envi net cfg t st = Ok st) ∧
  (0 < t → steps_per_epoch cfg = 0 →
   epoch_wrap_up envi net cfg t st = Raise ZeroDivisionError) ∧
  (0 < t → 0 < steps_per_epoch cfg → t `mod` steps_per_epoch cfg = 0 →
   (save_freq cfg = 0 →
    epoch_wrap_up envi net cfg t st = Raise ZeroDivisionError) ∧
   (0 < save_freq cfg →
    ∃ st' l,
      epoch_wrap_up envi net cfg t st = Ok st' ∧
      env st' = env st ∧ sess st' = sess st ∧
      replay_buffer st' = replay_buffer st ∧ np_random st' = np_random st ∧
      o st' = o st ∧ ep_ret st' = ep_ret st ∧ ep_len st' = ep_len st ∧
      logger st' = logger st ++ l ∧
      last l = Some (LogEpoch (t `div` steps_per_epoch cfg) t) ∧
      count_log is_log_epoch l = 1 ∧ count_log is_log_test l = 15 ∧
      count_log is_log_step l = 0 ∧ count_log is_log_episode l = 0 ∧
      (LogSaveState (t `div` steps_per_epoch cfg) ∈ l ↔
       (t `div` steps_per_epoch cfg) `mod` save_freq cfg = 0 ∨
       t `div` steps_per_epoch cfg = epochs cfg - 1))).
Proof.
  split; [apply epoch_wrap_up_off|]. split.
  - intros Ht Hspe. unfold epoch_wrap_up. rewrite decide_True by done.
    unfold py_mod. by rewrite decide_True.
  - intros Ht Hspe Hmod. split.
    + intros Hsf. unfold epoch_wrap_up. rewrite decide_True by done.
      unfold py_mod, py_floordiv. rewrite decide_False by lia.
      cbn [mbind result_bind]. rewrite decide_True by done.
      rewrite decide_False by lia. cbn [mbind result_bind].
      by rewrite decide_True.
    + by apply epoch_wrap_up_on.
Qed.

(** ** The main loop *)

Lemma count_log_nil (p : log_entry → bool) : count_log p [] = 0.
Proof. done. Qed.

Lemma epoch_boundaries_S (spe t n : nat) :
  epoch_boundaries spe t (S n) =
  (if decide (0 < t ∧ t `mod` spe = 0) then 1 else 0)
  + epoch_boundaries spe (S t) n.
Proof.
  unfold epoch_boundaries. cbn [seq].
  destruct (decide (0 < t ∧ t `mod` spe = 0)).
  - by rewrite filter_cons_True.
  - by rewrite filter_cons_False.
Qed.

Lemma epoch_boundaries_app (spe t n m : nat) :
  epoch_boundaries spe t (n + m) =
  epoch_boundaries spe t n + epoch_boundaries spe (t + n) m.
Proof.
  unfold epoch_boundaries. by rewrite seq_app, filter_app, length_app.
Qed.

(** No multiple of [spe] strictly between two consecutive ones. *)
Lemma epoch_boundaries_inside (spe k i m : nat) :
  0 < i → i + m ≤ spe → epoch_boundaries spe (spe * k + i) m = 0.
Proof.
  revert i. induction m as [|m IH]; intros i Hi Him; [done|].
  rewrite epoch_boundaries_S.
  rewrite decide_False.
  - replace (S (spe * k + i)) with (spe * k + S i) by lia.
    rewrite IH by lia. done.
  - intros [_ Hmod].
    rewrite Nat.add_comm, Nat.mul_comm, Nat.Div0.mod_add in Hmod.
    rewrite Nat.mod_small in Hmod by lia. lia.
Qed.

(** Among the iterations [0 .. spe*k - 1] the wrap-up runs at
    [spe, 2*spe, ..., (k-1)*spe]. *)
Lemma epoch_boundaries_total (spe k : nat) :
  0 < spe → epoch_boundaries spe 0 (spe * k) = k - 1.
Proof.
  intros Hspe. induction k as [|k IH].
  - by rewrite Nat.mul_0_r.
  - replace (spe * S k) with (spe * k + spe) by lia.
    rewrite epoch_boundaries_app, IH. cbn [Nat.add].
    destruct spe as [|m]; [lia|].
    rewrite epoch_boundaries_S.
    replace (S (S m * k)) with (S m * k + 1) by lia.
    rewrite epoch_boundaries_inside by lia.
    destruct k as [|k].
    + rewrite decide_False by lia. done.
    + rewrite decide_True.
      * lia.
      * split; [lia|]. rewrite Nat.mul_comm. apply Nat.Div0.mod_mul.
Qed.

Section LoopInvariant.
Context {E : Type} (envi : environment E) (net : networks).
Context (layout : list (subnet * nat)) (cfg : config).

(** Lines 263-307 of one iteration on a well-formed buffer. *)
Lemma collect_and_train_inv (t : nat) (st : loop_state E) :
  buffer_wf (replay_buffer st) →
  ∃ st' l,
    collect_and_train envi net layout cfg t st = Ok st' ∧
    buffer_wf (replay_buffer st') ∧
    max_size (replay_buffer st') = max_size (replay_buffer st) ∧
    size (replay_buffer st')
      = Nat.min (size (replay_buffer st) + 1) (max_size (replay_buffer st)) ∧
    ptr (replay_buffer st')
      = (ptr (replay_buffer st) + 1) `mod` max_size (replay_buffer st) ∧
    row_at (replay_buffer st') (ptr (replay_buffer st))
      = (let sel := select_action envi net cfg t st in
         let out := env_step envi sel.1 (env sel.2) in
         Some (stored (mk_transition (o st) sel.1 out.1.1.2 out.1.1.1
                                     out.1.2))) ∧
    test_env st' = test_env st ∧
    logger st' = logger st ++ l ∧
    count_log is_log_epoch l = 0 ∧ count_log is_log_test l = 0 ∧
    adam_t (pi_optimizer (sess st'))
      = adam_t (pi_optimizer (sess st)) + count_log is_log_step l ∧
    adam_t (value_optimizer (sess st'))
      = adam_t (value_optimizer (sess st)) + count_log is_log_step l ∧
    count_log is_log_step l + ep_len st' = ep_len st + 1 ∧
    (ep_len st < max_ep_len_train cfg → ep_len st' < max_ep_len_train cfg) ∧
    Forall (λ entry, ∀ ret len, entry = LogEpisode ret len →
                     len = ep_len st + 1) l ∧
    (ep_len st' = 0 ∨
     (ep_len st' = ep_len st + 1 ∧ ep_len st' ≠ max_ep_len_train cfg)).
Proof.
  intros Hwf. unfold collect_and_train.
  pose proof (select_action_frame envi net cfg t st) as Hsel.
  cbv zeta in Hsel |- *.
  destruct (select_action envi net cfg t st) as [a st1].
  cbn [fst snd] in Hsel |- *.
  destruct Hsel as (Hb & Hg & Ho & Hret & Hlen & Hlog & Hte & Hpi & Hval & _).
  destruct (env_step envi a (env st1)) as [[[o2 r] d] e'] eqn:Hstep.
  cbn [fst snd].
  rewrite Hb, Ho.
  assert (∃ buf,
            store (replay_buffer st) (mk_transition (o st) a r o2 d) = Ok buf ∧
            buffer_wf buf ∧
            max_size buf = max_size (replay_buffer st) ∧
            size buf = Nat.min (size (replay_buffer st) + 1)
                         (max_size (replay_buffer st)) ∧
            ptr buf = (ptr (replay_buffer st) + 1)
                        `mod` max_size (replay_buffer st) ∧
            row_at buf (ptr (replay_buffer st))
              = Some (stored (mk_transition (o st) a r o2 d)))
    as (buf & Hst & Hwf' & Hmax & Hsize & Hptr & Hrow).
  { pose proof (store_wf (replay_buffer st) (mk_transition (o st) a r o2 d)
                  Hwf) as Hst.
    eexists. split; [exact Hst|].
    split; [exact (store_preserves_wf _ _ _ Hwf Hst)|].
    pose proof (row_at_store _ _ _ (ptr (replay_buffer st)) Hwf Hst) as Hrow.
    rewrite decide_True in Hrow by done. done. }
  rewrite Hst. cbn [mbind result_bind].
  assert (Hpos : 0 < size buf).
  { rewrite Hsize. destruct Hwf. lia. }
  destruct (d || bool_decide (ep_len st1 + 1 = max_ep_len_train cfg)) eqn:Hend.
  - unfold end_of_episode. cbn [ep_len].
    match goal with |- context [train_burst _ _ _ _ _ ?s] =>
      destruct (train_burst_spec envi net layout cfg (ep_len st1 + 1) s)
        as (st3 & outs & Hrun & Houts & Hlog3 & Hpi3 & Hval3 & _ & Hbuf3 & _
            & Hte3 & _ & Hret3 & Hlen3); [done | done |]
    end.
    cbn [replay_buffer logger sess test_env ep_ret ep_len] in *.
    rewrite Hrun. cbn [mbind result_bind].
    eexists _, (map LogStep outs ++ [LogEpisode (ep_ret st3) (ep_len st3)]).
    split; [reflexivity|].
    cbn [replay_buffer logger sess test_env ep_ret ep_len].
    rewrite Hbuf3, Hte3, Hlog3, Hlog, Hte, Hpi3, Hval3, Hpi, Hval, Hlen3, Hlen.
    rewrite Hlen in Houts.
    assert (Hc : ∀ p ret len, p (LogEpisode ret len) = false →
                 count_log p [LogEpisode ret len] = 0).
    { intros p ret len Hp. unfold count_log.
      rewrite filter_cons_False by (by rewrite Hp). done. }
    rewrite !count_log_app, !(count_log_steps _ false) by done.
    rewrite (count_log_steps _ true) by done.
    rewrite !Hc by done. rewrite Houts.
    split_and!; try done; try lia.
    + by rewrite <- app_assoc.
    + apply Forall_app. split.
      * apply Forall_forall. intros entry Hin ret len ->.
        apply list_elem_of_fmap in Hin as (x & Hx & _). discriminate Hx.
      * apply Forall_singleton. intros ret len Heq. by injection Heq as _ <-.
  - exists (mk_loop_state e' (test_env st1) (sess st1) buf (np_random st1) o2
              (ep_ret st1 + r)%R (ep_len st1 + 1) (logger st1)), [].
    split; [reflexivity|].
    cbn [replay_buffer logger sess test_env ep_ret ep_len].
    rewrite Hlog, Hte, Hpi, Hval, Hlen, app_nil_r, !count_log_nil.
    apply orb_false_iff in Hend as [_ Hcap].
    apply bool_decide_eq_false in Hcap. rewrite Hlen in Hcap.
    split_and!; try done; try lia.
Qed.

Lemma count_log_zero (p : log_entry → bool) (l : list log_entry) :
  count_log p l = 0 → Forall (λ entry, p entry = false) l.
Proof.
  unfold count_log. induction l as [|x l IH]; intros Hc; [done|].
  destruct (p x) eqn:Hp.
  - rewrite filter_cons_True in Hc by done. discriminate Hc.
  - rewrite filter_cons_False in Hc by (by rewrite Hp). auto.
Qed.

(** One iteration of the main loop. *)
Lemma loop_body_inv (t : nat) (st : loop_state E) :
  0 < steps_per_epoch cfg → 0 < save_freq cfg →
  buffer_wf (replay_buffer st) →
  ∃ st' l,
    loop_body envi net layout cfg t st = Ok st' ∧
    buffer_wf (replay_buffer st') ∧
    max_size (replay_buffer st') = max_size (replay_buffer st) ∧
    size (replay_buffer st')
      = Nat.min (size (replay_buffer st) + 1) (max_size (replay_buffer st)) ∧
    ptr (replay_buffer st')
      = (ptr (replay_buffer st) + 1) `mod` max_size (replay_buffer st) ∧
    logger st' = logger st ++ l ∧
    count_log is_log_epoch l = epoch_boundaries (steps_per_epoch cfg) t 1 ∧
    count_log is_log_test l
      = 15 * epoch_boundaries (steps_per_epoch cfg) t 1 ∧
    adam_t (pi_optimizer (sess st'))
      = adam_t (pi_optimizer (sess st)) + count_log is_log_step l ∧
    adam_t (value_optimizer (sess st'))
      = adam_t (value_optimizer (sess st)) + count_log is_log_step l ∧
    count_log is_log_step l + ep_len st' = ep_len st + 1 ∧
    (ep_len st < max_ep_len_train cfg → ep_len st' < max_ep_len_train cfg) ∧
    Forall (λ entry, ∀ ret len, entry = LogEpisode ret len →
                     len = ep_len st + 1) l.
Proof.
  intros Hspe Hsf Hwf. unfold loop_body.
  destruct (collect_and_train_inv t st Hwf)
    as (st1 & l1 & -> & Hwf1 & Hmax1 & Hsize1 & Hptr1 & _ & _ & Hlog1 & He1
        & Ht1 & Hpi1 & Hval1 & Hstep1 & Hcap1 & Hep1 & _).
  cbn [mbind result_bind].
  rewrite epoch_boundaries_S. change (epoch_boundaries _ _ 0) with 0.
  destruct (decide (0 < t ∧ t `mod` steps_per_epoch cfg = 0)) as [[Ht Hm]|Hno].
  - destruct (epoch_wrap_up_on envi net cfg t st1 Ht Hspe Hm Hsf)
      as (st2 & l2 & -> & _ & Hs2 & Hb2 & _ & _ & _ & Hlen2 & Hlog2 & _ & He2
          & Ht2 & Hst2 & Hep2 & _).
    exists st2, (l1 ++ l2).
    rewrite Hb2, Hs2, Hlen2, Hlog2, Hlog1, !count_log_app.
    rewrite He1, Ht1, He2, Ht2, Hst2.
    split_and!; try done; try lia.
    + by rewrite <- app_assoc.
    + apply Forall_app. split; [done|].
      eapply Forall_impl; [exact (count_log_zero _ _ Hep2)|].
      intros entry Hentry ret len ->. discriminate Hentry.
  - rewrite epoch_wrap_up_off.
    2:{ destruct (decide (t = 0)); [by left | right; split; [done | lia]]. }
    exists st1, l1. rewrite He1, Ht1. split_and!; try done; lia.
Qed.

(** Iterations [t, ..., t+n-1] of the main loop. *)
Lemma main_loop_inv (n t : nat) (st : loop_state E) :
  0 < steps_per_epoch cfg → 0 < save_freq cfg →
  buffer_wf (replay_buffer st) →
  ∃ st' l,
    main_loop envi net layout cfg n t st = Ok st' ∧
    buffer_wf (replay_buffer st') ∧
    max_size (replay_buffer st') = max_size (replay_buffer st) ∧
    size (replay_buffer st')
      = Nat.min (size (replay_buffer st) + n) (max_size (replay_buffer st)) ∧
    ptr (replay_buffer st')
      = (ptr (replay_buffer st) + n) `mod` max_size (replay_buffer st) ∧
    logger st' = logger st ++ l ∧
    count_log is_log_epoch l = epoch_boundaries (steps_per_epoch cfg) t n ∧
    count_log is_log_test l
      = 15 * epoch_boundaries (steps_per_epoch cfg) t n ∧
    adam_t (pi_optimizer (sess st'))
      = adam_t (pi_optimizer (sess st)) + count_log is_log_step l ∧
    adam_t (value_optimizer (sess st'))
      = adam_t (value_optimizer (sess st)) + count_log is_log_step l ∧
    count_log is_log_step l + ep_len st' = ep_len st + n ∧
    (ep_len st < max_ep_len_train cfg →
     ep_len st' < max_ep_len_train cfg ∧
     Forall (λ entry, ∀ ret len, entry = LogEpisode ret len →
                      1 ≤ len ≤ max_ep_len_train cfg) l).
Proof.
  intros Hspe Hsf. revert t st. induction n as [|n IH]; intros t st Hwf.
  - exists st, []. cbn [main_loop]. rewrite app_nil_r, !count_log_nil.
    rewrite !Nat.add_0_r. destruct Hwf.
    split_and!; try done; try lia.
    by rewrite Nat.mod_small.
  - cbn [main_loop].
    destruct (loop_body_inv t st Hspe Hsf Hwf)
      as (st1 & l1 & -> & Hwf1 & Hmax1 & Hsize1 & Hptr1 & Hlog1 & He1 & Ht1
          & Hpi1 & Hval1 & Hstep1 & Hcap1 & Hep1).
    cbn [mbind result_bind].
    destruct (IH (t + 1) st1 Hwf1)
      as (st2 & l2 & -> & Hwf2 & Hmax2 & Hsize2 & Hptr2 & Hlog2 & He2 & Ht2
          & Hpi2 & Hval2 & Hstep2 & Hcap2).
    exists st2, (l1 ++ l2).
    replace (S n) with (1 + n) by lia.
    rewrite epoch_boundaries_app, !count_log_app.
    rewrite Hmax2, Hsize2, Hptr2, Hlog2, Hpi2, Hval2.
    rewrite Hmax1, Hsize1, Hptr1, Hlog1, Hpi1, Hval1, He1, He2, Ht1, Ht2.
    split_and!; try done; try lia.
    + rewrite Nat.Div0.add_mod_idemp_l. f_equal. lia.
    + by rewrite <- app_assoc.
    + intros Hlt. destruct (Hcap2 (Hcap1 Hlt)) as [Hlt2 Hall2].
      split; [done|]. apply Forall_app. split; [|done].
      eapply Forall_impl; [exact Hep1|].
      intros entry Hentry ret len ->.
      specialize (Hentry ret len eq_refl). lia.
Qed.
End LoopInvariant.

(** X21. One iteration of the main loop on a well-formed buffer stores the
    transition just observed in the slot under the cursor: the previous
    observation, the selected action, and the reward, next observation and
    done flag that [env.step] returned.  The flag is the environment's own
    also when the episode is cut by [max_ep_len_train]: with [d = False] the
    stored flag is 0.0 although the episode ends (the counter is reset), and
    the training burst that follows does not alter the row. *)
Theorem iteration_stores_observed_transition {E : Type}
    (envi : environment E) (net : networks) (layout : list (subnet * nat))
    (cfg : config) (t : nat) (st : loop_state E) :
  buffer_wf (replay_buffer st) →
  let sel := select_action envi net cfg t st in
  let out := env_step envi sel.1 (env sel.2) in
  ∃ st',
    collect_and_train envi net layout cfg t st = Ok st' ∧
    row_at (replay_buffer st') (ptr (replay_buffer st))
      = Some (o st, out.1.1.1, sel.1, out.1.1.2, float_of_bool out.1.2) ∧
    (out.1.2 = false → ep_len st + 1 = max_ep_len_train cfg →
     ep_len st' = 0 ∧
     row_at (replay_buffer st') (ptr (replay_buffer st))
       = Some (o st, out.1.1.1, sel.1, out.1.1.2, 0%R)).
Proof.
  intros Hwf sel out.
  destruct (collect_and_train_inv envi net layout cfg t st Hwf)
    as (st' & l & Hrun & _ & _ & _ & _ & Hrow & _ & _ & _ & _ & _ & _ & _
        & _ & _ & Hend).
  cbv zeta in Hrow. unfold stored in Hrow.
  cbn [t_done t_obs t_next_obs t_act t_rew] in Hrow.
  subst sel out.
  exists st'. split; [done|]. split; [exact Hrow|].
  intros Hd Hlen. split.
  - destruct Hend as [Hz | [Hs Hne]]; [done | lia].
  - rewrite Hrow, Hd. done.
Qed.

Lemma iteration_stores_observed_transition_witness :
  buffer_wf (replay_buffer st_ex) ∧
  ∃ st',
    collect_and_train env_ex net0 layout3 cfg_ex 0 st_ex = Ok st' ∧
    row_at (replay_buffer st') (ptr (replay_buffer st_ex))
      = Some ([1%R], [1%R], [0%R], 1%R, 1%R).
Proof.
  split; [exact buf_one_wf|].
  destruct (iteration_stores_observed_transition env_ex net0 layout3 cfg_ex 0
              st_ex buf_one_wf) as (st' & Hrun & Hrow & _).
  exists st'. split; [exact Hrun | exact Hrow].
Defined.

(** X22. Invariant of the main loop.  From a state with a well-formed
    buffer, with [steps_per_epoch >= 1] and [save_freq >= 1], any number [n]
    of iterations runs without an exception; the buffer then holds
    [min(size + n, max_size)] transitions with the cursor [n] slots further
    (modulo [max_size]); both optimizers made one step per logged update
    cycle, and the number of update cycles plus the length of the episode in
    progress grew by exactly [n] (every environment step is paid back by one
    gradient step once its episode ends).  If the episode counter starts
    below [max_ep_len_train] it stays below it at the start of every
    iteration and every training episode logged is 1 to [max_ep_len_train]
    steps long. *)
Theorem main_loop_invariant {E : Type} (envi : environment E)
    (net : networks) (layout : list (subnet * nat)) (cfg : config)
    (n t : nat) (st : loop_state E) :
  0 < steps_per_epoch cfg → 0 < save_freq cfg →
  buffer_wf (replay_buffer st) →
  ∃ st' l,
    main_loop envi net layout cfg n t st = Ok st' ∧
    buffer_wf (replay_buffer st') ∧
    max_size (replay_buffer st') = max_size (replay_buffer st) ∧
    size (replay_buffer st')
      = Nat.min (size (replay_buffer st) + n) (max_size (replay_buffer st)) ∧
    ptr (replay_buffer st')
      = (ptr (replay_buffer st) + n) `mod` max_size (replay_buffer st) ∧
    logger st' = logger st ++ l ∧
    count_log is_log_epoch l = epoch_boundaries (steps_per_epoch cfg) t n ∧
    count_log is_log_test l
      = 15 * epoch_boundaries (steps_per_epoch cfg) t n ∧
    adam_t (pi_optimizer (sess st'))
      = adam_t (pi_optimizer (sess st)) + count_log is_log_step l ∧
    adam_t (value_optimizer (sess st'))
      = adam_t (value_optimizer (sess st)) + count_log is_log_step l ∧
    count_log is_log_step l + ep_len st' = ep_len st + n ∧
    (ep_len st < max_ep_len_train cfg →
     ep_len st' < max_ep_len_train cfg ∧
     Forall (λ entry, ∀ ret len, entry = LogEpisode ret len →
                      1 ≤ len ≤ max_ep_len_train cfg) l).
Proof. apply main_loop_inv. Qed.

Lemma main_loop_invariant_witness :
  (0 < steps_per_epoch cfg_ex ∧ 0 < save_freq cfg_ex ∧
   buffer_wf (replay_buffer st_ex)) ∧
  ∃ st', main_loop env_ex net0 layout3 cfg_ex 3 0 st_ex = Ok st' ∧
         size (replay_buffer st') = 2.
Proof.
  assert (H1 : 0 < steps_per_epoch cfg_ex) by (simpl; lia).
  assert (H2 : 0 < save_freq cfg_ex) by (simpl; lia).
  split; [split_and!; [exact H1 | exact H2 | exact buf_one_wf]|].
  destruct (main_loop_invariant env_ex net0 layout3 cfg_ex 3 0 st_ex H1 H2
              buf_one_wf) as (st' & l & Hrun & _ & _ & Hsize & _).
  exists st'. split; [exact Hrun | exact Hsize].
Defined.

(** X23. A whole run of [sac1].  With [replay_size >= 1],
    [steps_per_epoch >= 1], [save_freq >= 1] and [max_ep_len_train >= 1] the
    run of [steps_per_epoch * epochs] iterations ends without an exception.
    At the end the buffer holds [min(total_steps, replay_size)] transitions;
    the two optimizers made the same number of steps, one per logged update
    cycle, and this number plus the length of the unfinished last episode is
    [total_steps]; the end of epoch wrap-up (15 test episodes and one epoch
    record) ran [epochs - 1] times only, because the loop stops at
    [t = total_steps - 1], before the boundary of the last epoch. *)
Theorem sac1_whole_run {E : Type} (envi : environment E) (net : networks)
    (layout : list (subnet * nat)) (cfg : config) (w0 : variable → list R)
    (e0 te0 : E) (g0 : rng_state) :
  1 ≤ replay_size cfg → 1 ≤ steps_per_epoch cfg → 1 ≤ save_freq cfg →
  1 ≤ max_ep_len_train cfg →
  ∃ st',
    sac1 envi net layout cfg w0 e0 te0 g0 = Ok st' ∧
    size (replay_buffer st')
      = Nat.min (steps_per_epoch cfg * epochs cfg) (replay_size cfg) ∧
    ptr (replay_buffer st')
      = (steps_per_epoch cfg * epochs cfg) `mod` replay_size cfg ∧
    adam_t (pi_optimizer (sess st')) = count_log is_log_step (logger st') ∧
    adam_t (value_optimizer (sess st'))
      = count_log is_log_step (logger st') ∧
    count_log is_log_step (logger st') + ep_len st'
      = steps_per_epoch cfg * epochs cfg ∧
    ep_len st' < max_ep_len_train cfg ∧
    count_log is_log_epoch (logger st') = epochs cfg - 1 ∧
    count_log is_log_test (logger st') = 15 * (epochs cfg - 1) ∧
    Forall (λ entry, ∀ ret len, entry = LogEpisode ret len →
                     1 ≤ len ≤ max_ep_len_train cfg) (logger st').
Proof.
  intros Hrs Hspe Hsf Hmax. unfold sac1.
  assert (Hwf : buffer_wf
                  (replay_buffer (initial_state envi layout cfg w0 e0 te0 g0))).
  { apply buffer_wf_init. lia. }
  destruct (main_loop_inv envi net layout cfg
              (steps_per_epoch cfg * epochs cfg) 0
              (initial_state envi layout cfg w0 e0 te0 g0)
              ltac:(lia) ltac:(lia) Hwf)
    as (st' & l & Hrun & _ & _ & Hsize & Hptr & Hlog & He & Ht & Hpi & Hval
        & Hstep & Hcap).
  exists st'. split; [exact Hrun|].
  cbn [initial_state replay_buffer sess pi_optimizer value_optimizer ep_len
       logger ReplayBuffer_init size ptr max_size adam_new adam_t]
    in Hsize, Hptr, Hlog, Hpi, Hval, Hstep, Hcap.
  cbn [app] in Hlog. rewrite Hlog.
  rewrite epoch_boundaries_total in He, Ht by lia.
  destruct (Hcap ltac:(lia)) as [Hlt Hall].
  split_and!; try done; lia.
Qed.

Lemma sac1_whole_run_witness :
  (1 ≤ replay_size cfg_ex ∧ 1 ≤ steps_per_epoch cfg_ex ∧
   1 ≤ save_freq cfg_ex ∧ 1 ≤ max_ep_len_train cfg_ex) ∧
  ∃ st', sac1 env_ex net0 layout3 cfg_ex w_ex 0 0 gen0 = Ok st' ∧
         size (replay_buffer st') = 2.
Proof.
  assert (H1 : 1 ≤ replay_size cfg_ex) by (simpl; lia).
  assert (H2 : 1 ≤ steps_per_epoch cfg_ex) by (simpl; lia).
  assert (H3 : 1 ≤ save_freq cfg_ex) by (simpl; lia).
  assert (H4 : 1 ≤ max_ep_len_train cfg_ex) by (simpl; lia).
  split; [split_and!; [exact H1 | exact H2 | exact H3 | exact H4]|].
  destruct (sac1_whole_run env_ex net0 layout3 cfg_ex w_ex 0 0 gen0
              H1 H2 H3 H4) as (st' & Hrun & Hsize & _).
  exists st'. split; [exact Hrun | exact Hsize].
Defined.

(** X24. [replay_size = 0] is not rejected when the buffer is built: the
    run fails at the first [replay_buffer.store], in iteration 0, with
    IndexError, as soon as there is one iteration to run. *)
Theorem sac1_replay_size_zero {E : Type} (envi : environment E)
    (net : networks) (layout : list (subnet * nat)) (cfg : config)
    (w0 : variable → list R) (e0 te0 : E) (g0 : rng_state) :
  replay_size cfg = 0 → 0 < steps_per_epoch cfg * epochs cfg →
  sac1 envi net layout cfg w0 e0 te0 g0 = Raise IndexError.
Proof.
  intros Hrs Htot. unfold sac1.
  destruct (steps_per_epoch cfg * epochs cfg) as [|k]; [lia|].
  cbn [main_loop]. unfold loop_body, collect_and_train.
  pose proof (select_action_frame envi net cfg 0
                (initial_state envi layout cfg w0 e0 te0 g0)) as Hsel.
  cbv zeta in Hsel.
  destruct (select_action envi net cfg 0
              (initial_state envi layout cfg w0 e0 te0 g0)) as [a st1].
  cbn [fst snd] in Hsel. destruct Hsel as (Hb & _).
  destruct (env_step envi a (env st1)) as [[[o2 r] d] e'].
  rewrite Hb. cbn [initial_state replay_buffer]. rewrite Hrs.
  reflexivity.
Qed.

Lemma sac1_replay_size_zero_witness :
  (replay_size (mk_config 20 1 0 0.99%R 0.995%R 0.0005%R (AlphaFixed 0.2%R)
                  4 0 5 5 1) = 0 ∧ 0 < 20 * 1) ∧
  sac1 env_ex net0 layout3
    (mk_config 20 1 0 0.99%R 0.995%R 0.0005%R (AlphaFixed 0.2%R) 4 0 5 5 1)
    w_ex 0 0 gen0 = Raise IndexError.
Proof.
  split; [split; [reflexivity | lia]|].
  apply sac1_replay_size_zero; [reflexivity | simpl; lia].
Defined.

(** X25. Clipped double-Q target.  For a discount [gamma >= 0] and a stored
    done flag (0.0 or 1.0), every entry of the regression target
    [q_backup] is the smaller of the two targets that the target Q-networks
    would give one by one: it equals one of them and exceeds neither. *)
Theorem q_backup_is_pessimistic (r_ph d_ph q1_pi_ q2_pi_ logp_pi2 : list R)
    (gamma alpha : R) (i : nat) (r a1 a2 l : R) (d : bool) :
  (0 <= gamma)%R →
  r_ph !! i = Some r → d_ph !! i = Some (float_of_bool d) →
  q1_pi_ !! i = Some a1 → q2_pi_ !! i = Some a2 → logp_pi2 !! i = Some l →
  ∃ y y1 y2,
    q_backup_graph r_ph d_ph gamma alpha q1_pi_ q2_pi_ logp_pi2 !! i = Some y ∧
    q_backup r_ph gamma d_ph (v_backup q1_pi_ alpha logp_pi2) !! i = Some y1 ∧
    q_backup r_ph gamma d_ph (v_backup q2_pi_ alpha logp_pi2) !! i = Some y2 ∧
    y = Rmin y1 y2.
Proof.
  intros Hg Hr Hd H1 H2 Hl.
  assert (Hv : ∀ q a, q !! i = Some a →
               v_backup q alpha logp_pi2 !! i = Some (a - alpha * l)%R).
  { intros q a Hq. unfold v_backup, t_sub, t_scale.
    by rewrite lookup_zip_with, list_lookup_fmap, Hq, Hl. }
  exists (r + gamma * (1 - float_of_bool d) * (Rmin a1 a2 - alpha * l))%R,
         (r + gamma * (1 - float_of_bool d) * (a1 - alpha * l))%R,
         (r + gamma * (1 - float_of_bool d) * (a2 - alpha * l))%R.
  split_and!.
  - unfold q_backup_graph.
    apply q_backup_lookup; [done | done |]. by apply v_backup_lookup.
  - apply q_backup_lookup; [done | done |]. by apply Hv.
  - apply q_backup_lookup; [done | done |]. by apply Hv.
  - assert (Hc : (0 <= gamma * (1 - float_of_bool d))%R).
    { destruct d; unfold float_of_bool; nra. }
    revert Hc. generalize (gamma * (1 - float_of_bool d))%R. intros c Hc.
    unfold Rmin.
    destruct (Rle_dec a1 a2) as [Hle|Hgt];
      destruct (Rle_dec (r + c * (a1 - alpha * l)) (r + c * (a2 - alpha * l)))
        as [Hle'|Hgt']; try done; nra.
Qed.

Lemma q_backup_is_pessimistic_witness :
  (0 <= 0.99)%R ∧
  ∃ y, q_backup_graph [1%R] [0%R] 0.99%R 0.2%R [3%R] [2%R] [0%R] !! 0
       = Some y.
Proof.
  assert (Hg : (0 <= 0.99)%R) by lra.
  split; [exact Hg|].
  destruct (q_backup_is_pessimistic [1%R] [float_of_bool false] [3%R] [2%R]
              [0%R] 0.99%R 0.2%R 0 1%R 3%R 2%R 0%R false Hg
              eq_refl eq_refl eq_refl eq_refl eq_refl)
    as (y & _ & _ & Hy & _).
  exists y. exact Hy.
Defined.
